(** * ml-lab: the TF-IDF retriever of [rag.ipynb]

    A shallow embedding of the notebook's [retrieve_documents] together with
    the scikit-learn and NumPy calls it is built from.

    Conventions of the embedding:
    - Python [str] values are [string]s of ASCII characters;
    - Python [int] arguments ([top_n]) are [Z];
    - the float64 entries of the TF-IDF matrix and of the similarity vector
      are idealised as real numbers ([R]): rounding is not modelled;
    - a Python exception is the [Raise] branch of [result];
    - scikit-learn's [TfidfVectorizer()] and [cosine_similarity] are
      embedded with their default parameters;
    - [numpy.argsort] with its default [kind] is not a stable sort: it is a
      parameter [argsort] of the notebook's cell, of which only the
      contract [Np.is_argsort] is assumed. On an array of at most 16
      elements NumPy's scalar sort is an insertion sort,
      [Np.insertion_argsort], which is stable; statements about the order
      of ties are made for a stable sort only.

    Two further parts embed the code of the other notebooks: the loop of
    [DetailJob.forward] (module [Dspy]), with the language model as a
    parameter that returns or raises, and the [id] and [username] fields
    of [UserProfile] (module [Pydantic]), on inputs of the declared
    type. *)

From Stdlib Require Import String Ascii ZArith Bool Arith Lia.
From Stdlib Require Import Reals Lra Psatz.
From Stdlib Require Import List Permutation Sorted.
From Stdlib Require DecimalString.
Import ListNotations.

(** ** Python results *)

Inductive exn : Type :=
| ValueError_empty_vocabulary
    (* CountVectorizer: "empty vocabulary; perhaps the documents only
       contain stop words" *)
| ValueError_shape
    (* check_pairwise_arrays / check_array: incompatible dimension, or an
       array with 0 samples *)
| IndexError.
    (* list index out of range *)

Inductive result (A : Type) : Type :=
| Ok (a : A)
| Raise (e : exn).

Arguments Ok {A} a.
Arguments Raise {A} e.

Definition bind {A B : Type} (r : result A) (k : A -> result B) : result B :=
  match r with
  | Ok a => k a
  | Raise e => Raise e
  end.

Notation "x <- r ;; k" := (bind r (fun x => k))
  (at level 61, r at next level, right associativity).

Fixpoint mapM {A B : Type} (f : A -> result B) (l : list A) : result (list B) :=
  match l with
  | [] => Ok []
  | x :: l' => y <- f x ;; ys <- mapM f l' ;; Ok (y :: ys)
  end.

(** ** Python sequences *)

Module Py.

(** [l[i]] for a non-negative index [i]. *)
Definition getitem {A : Type} (l : list A) (i : nat) : result A :=
  match nth_error l i with
  | Some x => Ok x
  | None => Raise IndexError
  end.

(** [l[start:]]: a negative [start] counts from the end, and both ends
    are clamped to the sequence. *)
Definition slice_from {A : Type} (start : Z) (l : list A) : list A :=
  let n := Z.of_nat (length l) in
  let s := if (start <? 0)%Z then Z.max (start + n) 0 else Z.min start n in
  skipn (Z.to_nat s) l.

(** [l[::-1]] *)
Definition reversed {A : Type} (l : list A) : list A := rev l.

End Py.

(** ** Real vectors *)

Module Vec.
Local Open Scope R_scope.

Fixpoint dot (u v : list R) : R :=
  match u, v with
  | x :: u', y :: v' => x * y + dot u' v'
  | _, _ => 0
  end.

(** The strict order of float comparison, on the idealised values. *)
Definition Rltb (x y : R) : bool := if Rlt_dec x y then true else false.

End Vec.

(** ** NumPy *)

Module Np.

(** One step of the insertion sort on (index, value) pairs: the new pair
    moves left past the strictly greater values only. *)
Fixpoint insert {A : Type} (ltb : A -> A -> bool) (x : nat * A)
    (l : list (nat * A)) : list (nat * A) :=
  match l with
  | [] => [x]
  | y :: l' => if ltb (snd x) (snd y) then x :: l else y :: insert ltb x l'
  end.

Definition sort_pairs {A : Type} (ltb : A -> A -> bool)
    (l : list (nat * A)) : list (nat * A) :=
  fold_left (fun acc x => insert ltb x acc) l [].

(** [a.argsort()] as NumPy's insertion sort computes it, with the values
    compared by [ltb]. *)
Definition insertion_argsort {A : Type} (ltb : A -> A -> bool) (a : list A)
  : list nat :=
  map fst (sort_pairs ltb (combine (seq 0 (length a)) a)).

(** [idx] lists indices of [a] in ascending order of value. *)
Definition ascending (a : list R) (idx : list nat) : Prop :=
  StronglySorted (fun i j => (nth i a 0 <= nth j a 0)%R) idx.

(** The contract of [a.argsort()]: every index of [a] once, in ascending
    order of value. The order of equal values is left open. *)
Definition is_argsort (argsort : list R -> list nat) : Prop :=
  forall a : list R,
    Permutation (argsort a) (seq 0 (length a)) /\ ascending a (argsort a).

(** [idx] is ascending, and equal values keep the order of their
    indices. *)
Definition stable_ascending (a : list R) (idx : list nat) : Prop :=
  StronglySorted
    (fun i j => (nth i a 0 < nth j a 0)%R \/
                (nth i a 0%R = nth j a 0%R /\ i < j)) idx.

(** The contract of a stable argsort. *)
Definition is_stable_argsort (argsort : list R -> list nat) : Prop :=
  forall a : list R,
    Permutation (argsort a) (seq 0 (length a)) /\
    stable_ascending a (argsort a).

(** [m.flatten()] *)
Definition flatten {A : Type} (m : list (list A)) : list A := concat m.

End Np.

(** ** scikit-learn: [TfidfVectorizer()] with its default parameters and
    [cosine_similarity] *)

Module Sk.
Local Open Scope R_scope.

(** *** The analyzer: [lowercase=True],
    [token_pattern=r"(?u)\b\w\w+\b"], no stop words, unigrams *)

Definition is_word (c : ascii) : bool :=
  let n := nat_of_ascii c in
  ((48 <=? n)%nat && (n <=? 57)%nat)
  || ((65 <=? n)%nat && (n <=? 90)%nat)
  || ((97 <=? n)%nat && (n <=? 122)%nat)
  || (n =? 95)%nat.

Definition lower_char (c : ascii) : ascii :=
  let n := nat_of_ascii c in
  if ((65 <=? n)%nat && (n <=? 90)%nat)%bool
  then ascii_of_nat (n + 32) else c.

(** [doc.lower()] *)
Fixpoint lower (s : string) : string :=
  match s with
  | EmptyString => EmptyString
  | String c s' => String (lower_char c) (lower s')
  end.

(** The maximal runs of word characters of [cs]; [cur] is the run being
    read, last character first. *)
Fixpoint word_runs (cs cur : list ascii) : list (list ascii) :=
  match cs with
  | [] => [rev cur]
  | c :: cs' =>
      if is_word c then word_runs cs' (c :: cur)
      else rev cur :: word_runs cs' []
  end.

(** [token_pattern.findall(doc)]: the runs of two or more word
    characters. *)
Definition tokenize (doc : string) : list string :=
  map string_of_list_ascii
    (filter (fun r => (2 <=? length r)%nat)
       (word_runs (list_ascii_of_string doc) [])).

Definition analyze (doc : string) : list string := tokenize (lower doc).

(** *** The vocabulary: the distinct terms, sorted *)

Fixpoint vocab_insert (t : string) (l : list string) : list string :=
  match l with
  | [] => [t]
  | u :: l' =>
      match String.compare t u with
      | Lt => t :: l
      | Eq => l
      | Gt => u :: vocab_insert t l'
      end
  end.

Definition sorted_terms (terms : list string) : list string :=
  fold_left (fun acc t => vocab_insert t acc) terms [].

(** *** Term counts *)

Definition count (t : string) (toks : list string) : nat :=
  length (filter (String.eqb t) toks).

(** One row of the document-term matrix of [CountVectorizer]. *)
Definition counts (vocab : list string) (doc : string) : list nat :=
  let toks := analyze doc in
  map (fun t => count t toks) vocab.

(** [_document_frequency]: the number of rows with a non-zero entry in
    column [j]. *)
Definition document_frequency (X : list (list nat)) (j : nat) : nat :=
  length (filter (fun row => (0 <? nth j row 0)%nat) X).

(** *** The weights: [smooth_idf=True], [sublinear_tf=False],
    [norm="l2"] *)

(** [idf_ = log((n_samples + 1) / (df + 1)) + 1] *)
Definition smooth_idf (n df : nat) : R :=
  ln (INR (n + 1) / INR (df + 1)) + 1.

(** The raw weight of a term that occurs [tf] times in a document. *)
Definition tfidf (tf n df : nat) : R := INR tf * smooth_idf n df.

(** [X * idf_] on one row. *)
Fixpoint scale (row : list nat) (idf : list R) : list R :=
  match row, idf with
  | c :: row', w :: idf' => INR c * w :: scale row' idf'
  | _, _ => []
  end.

(** [normalize(X, norm="l2")] on one row: a row whose squares sum to
    zero is left as it is. *)
Definition normalize_row (v : list R) : list R :=
  let s := Vec.dot v v in
  if Req_dec_T s 0 then v else map (fun x => x / sqrt s) v.

Definition matrix : Type := list (list R).

Definition tfidf_transform (idf : list R) (X : list (list nat)) : matrix :=
  map (fun row => normalize_row (scale row idf)) X.

(** The fitted attributes of the vectorizer. *)
Record TfidfVectorizer : Type := {
  vocabulary_ : list string;
  idf_ : list R
}.

(** [TfidfVectorizer().fit_transform(raw_documents)]: the fitted
    vectorizer and the matrix, or the error of an empty vocabulary. *)
Definition fit_transform (raw_documents : list string)
  : result (TfidfVectorizer * matrix) :=
  let vocab := sorted_terms (concat (map analyze raw_documents)) in
  match vocab with
  | [] => Raise ValueError_empty_vocabulary
  | _ :: _ =>
      let X := map (counts vocab) raw_documents in
      let n := length raw_documents in
      let idf :=
        map (fun j => smooth_idf n (document_frequency X j))
          (seq 0 (length vocab)) in
      Ok ({| vocabulary_ := vocab; idf_ := idf |}, tfidf_transform idf X)
  end.

(** [vectorizer.transform(raw_documents)]: terms outside the vocabulary
    are ignored. *)
Definition transform (vectorizer : TfidfVectorizer)
    (raw_documents : list string) : matrix :=
  tfidf_transform (idf_ vectorizer)
    (map (counts (vocabulary_ vectorizer)) raw_documents).

(** *** [cosine_similarity(X, Y)] *)

Definition has_width (d : nat) (M : matrix) : bool :=
  forallb (fun r => (length r =? d)%nat) M.

Definition cosine_similarity (X Y : matrix) : result matrix :=
  match X, Y with
  | x0 :: _, _ :: _ =>
      let d := length x0 in
      if ((1 <=? d)%nat && has_width d X && has_width d Y)%bool
      then Ok (map (fun x =>
                      map (fun y =>
                             Vec.dot (normalize_row x) (normalize_row y)) Y)
                 X)
      else Raise ValueError_shape
  | _, _ => Raise ValueError_shape
  end.

End Sk.

(** ** The notebook *)

(** Cell 2 *)
Definition corpus : list string :=
  [ "the cat sat on the mat";
    "the dog chased the cat";
    "the cat and dog played together";
    "the cat is sleeping";
    "the dog barked loudly" ]%string.

Section Cell4.

(** [numpy.ndarray.argsort] *)
Variable argsort : list R -> list nat.

(** Cell 4 *)
Definition retrieve_documents (query : string) (corpus : list string)
    (vectorizer : Sk.TfidfVectorizer) (kb : Sk.matrix) (top_n : Z)
  : result (list string) :=
  let query_vector := Sk.transform vectorizer [query] in
  K <- Sk.cosine_similarity query_vector kb ;;
  let cosine_similarities := Np.flatten K in
  let related_docs_indices :=
    Py.reversed (Py.slice_from (- top_n) (argsort cosine_similarities)) in
  mapM (Py.getitem corpus) related_docs_indices.

End Cell4.

(** Cell 5 *)
Definition query : string := "the dog chased who ?"%string.

(** * Definitions for the statements *)

(** ** The insertion sort *)

(** [p] may stand before [q]: its value is not greater, and on equal
    values its index is the lower one. *)
Definition precedes {A : Type} (ltb : A -> A -> bool)
    (p q : nat * A) : Prop :=
  ltb (snd q) (snd p) = false /\
  (ltb (snd p) (snd q) = true \/ fst p < fst q).

(** The same on the indices of an array [a]. *)
Definition sorts_before {A : Type} (ltb : A -> A -> bool)
    (a : list A) (d : A) (i j : nat) : Prop :=
  ltb (nth j a d) (nth i a d) = false /\
  (ltb (nth i a d) (nth j a d) = true \/ i < j).

(** ** The fitted objects *)

(** The vocabulary that [fit_transform] learns. *)
Definition learned_vocabulary (raw_documents : list string) : list string :=
  Sk.sorted_terms (concat (map Sk.analyze raw_documents)).

(** The vectorizer that [fit_transform] leaves fitted. *)
Definition fitted (raw_documents : list string) : Sk.TfidfVectorizer :=
  let vocab := learned_vocabulary raw_documents in
  {| Sk.vocabulary_ := vocab;
     Sk.idf_ :=
       map (fun j =>
              Sk.smooth_idf (length raw_documents)
                (Sk.document_frequency
                   (map (Sk.counts vocab) raw_documents) j))
         (seq 0 (length vocab)) |}.

(** The raw row of a document: counts times idf, before normalisation. *)
Definition raw_row (v : Sk.TfidfVectorizer) (doc : string) : list R :=
  Sk.scale (Sk.counts (Sk.vocabulary_ v) doc) (Sk.idf_ v).

(** The row that [transform] computes for one document. *)
Definition tfidf_row (v : Sk.TfidfVectorizer) (doc : string) : list R :=
  Sk.normalize_row (raw_row v doc).


(** The weight formula as the spec writes it, read with the usual
    precedence: [tf * log((1 + N) / (1 + df)) + 1]. *)
Definition spec_weight_literal (tf n df : nat) : R :=
  (INR tf * ln (INR (1 + n) / INR (1 + df)) + 1)%R.

(** A row of zeros. *)
Definition zero_vector (v : list R) : Prop := Forall (fun x => x = 0%R) v.

(** ** The local variables of [retrieve_documents], as functions of its
    arguments *)

Definition cosine_similarities (vectorizer : Sk.TfidfVectorizer)
    (kb : Sk.matrix) (query : string) : list R :=
  map (fun y =>
         Vec.dot (Sk.normalize_row (tfidf_row vectorizer query))
                 (Sk.normalize_row y)) kb.

Definition related_docs_indices (argsort : list R -> list nat)
    (vectorizer : Sk.TfidfVectorizer) (kb : Sk.matrix) (query : string)
    (top_n : Z) : list nat :=
  Py.reversed
    (Py.slice_from (- top_n)
       (argsort (cosine_similarities vectorizer kb query))).

(** A query has a recognised term when one of its tokens is in the
    vocabulary. *)
Definition has_vocabulary_term (vectorizer : Sk.TfidfVectorizer)
    (query : string) : bool :=
  existsb (fun tok => existsb (String.eqb tok) (Sk.vocabulary_ vectorizer))
    (Sk.analyze query).

(** ** The order of a ranking *)

Fixpoint position (i : nat) (l : list nat) : option nat :=
  match l with
  | [] => None
  | j :: l' => if (i =? j)%nat then Some 0%nat
               else option_map S (position i l')
  end.

(** [i] stands before [j] in [l]. *)
Definition ranked_before (l : list nat) (i j : nat) : Prop :=
  match position i l, position j l with
  | Some p, Some q => p < q
  | _, _ => False
  end.

(** Of two ranked indices the one with the greater similarity stands
    first. *)
Definition descending_similarity (sims : list R) (idx : list nat) : Prop :=
  forall i j, In i idx -> In j idx ->
              (nth j sims 0 < nth i sims 0)%R -> ranked_before idx i j.




(** ** The objects of the notebook *)

(** Cell 3: [vectorizer = TfidfVectorizer()] and
    [vector_kb = vectorizer.fit_transform(corpus)], on the corpus of
    cell 2. *)
Definition vectorizer : Sk.TfidfVectorizer := fitted corpus.
Definition vector_kb : Sk.matrix := Sk.transform vectorizer corpus.

(** The similarity of the notebook's query to a document. *)
Definition sim (doc : string) : R :=
  Vec.dot (Sk.normalize_row (tfidf_row vectorizer query))
          (Sk.normalize_row (tfidf_row vectorizer doc)).

(** A corpus of two documents with the same words. *)
Definition corpus_same_words : list string :=
  [ "the cat chased the dog"; "the dog chased the cat" ]%string.




(** ** Shared tokens *)

(** A query and a document share a token. *)
Definition shares_token (query doc : string) : Prop :=
  exists t, In t (Sk.analyze query) /\ In t (Sk.analyze doc).

(** A row without negative entries. *)
Definition nonneg_vector (v : list R) : Prop := Forall (fun x => (0 <= x)%R) v.

(** Two rows are positive at a common position. *)
Definition overlap (u w : list R) : Prop :=
  exists i, (0 < nth i u 0)%R /\ (0 < nth i w 0)%R.

(** ** The order of the vocabulary *)

(** [s1 < s2] in the order of [sorted]: code point by code point. *)
Definition string_lt (s1 s2 : string) : Prop := String.compare s1 s2 = Lt.


(** * The skill pipeline of the DSPy notebook: [DetailJob] *)

Module Dspy.

Local Open Scope string_scope.

(** The output fields of the two signatures. *)
Module SkillIdentifier.
Record Prediction : Type := { tech_skills : list string }.
End SkillIdentifier.

Module SkillSummary.
Record Prediction : Type := {
  skill_summary : string;
  project_based_examples : list string
}.
End SkillSummary.

(** What a run does to the outside, oldest event first: the calls of the
    two predictors and the lines printed. *)
Inductive event : Type :=
| Call_skill_identifier (job_description : string)
| Call_skill_summary (tech_skill : string)
| Print (line : string).

(** [s * n] on a Python string. *)
Fixpoint str_mul (s : string) (n : nat) : string :=
  match n with
  | O => EmptyString
  | S n' => s ++ str_mul s n'
  end.

Definition newline : string := String (Ascii.ascii_of_nat 10) EmptyString.

Section DetailJob.

(** The language model behind [dspy.Predict], with all it keeps between
    calls (settings, cache, history).  A call of a predictor returns a
    prediction or raises ([None]), and leaves the model in a new state. *)
Variable LM : Type.
Variable skill_identifier :
  string -> LM -> option SkillIdentifier.Prediction * LM.
Variable skill_summary :
  string -> LM -> option SkillSummary.Prediction * LM.

(** [str] of a list of strings, as an f-string formats it. *)
Variable format_list : list string -> string.

Record world : Type := { lm : LM; trace : list event }.

(** A computation changes the world, and returns a value or raises. *)
Definition M (A : Type) : Type := world -> option A * world.

Definition ret {A : Type} (a : A) : M A := fun w => (Some a, w).

Definition bindM {A B : Type} (m : M A) (k : A -> M B) : M B :=
  fun w =>
    match m w with
    | (Some a, w') => k a w'
    | (None, w') => (None, w')
    end.

Local Notation "x <~ m ;;; k" := (bindM m (fun x => k))
  (at level 61, m at next level, right associativity).

Definition emit (e : event) (w : world) : world :=
  {| lm := lm w; trace := (trace w ++ [e])%list |}.

Definition print (line : string) : M unit :=
  fun w => (Some tt, emit (Print line) w).

(** [self.skill_identifier(job_description=...)] *)
Definition call_skill_identifier (job_description : string)
  : M SkillIdentifier.Prediction :=
  fun w =>
    let '(r, st) := skill_identifier job_description (lm w) in
    (r, {| lm := st;
           trace := (trace w ++ [Call_skill_identifier job_description])%list |}).

(** [self.skill_summary(tech_skill=...)] *)
Definition call_skill_summary (tech_skill : string)
  : M SkillSummary.Prediction :=
  fun w =>
    let '(r, st) := skill_summary tech_skill (lm w) in
    (r, {| lm := st;
           trace := (trace w ++ [Call_skill_summary tech_skill])%list |}).

(** The body of [for i, item in enumerate(skills_resp.tech_skills)],
    entered with index [i] and the items that are left. *)
Fixpoint for_items (top_k i : Z) (items : list string) : M unit :=
  match items with
  | [] => ret tt
  | item :: rest =>
      details_resp <~ call_skill_summary item ;;;
      _ <~ print (str_mul "=" 50) ;;;
      _ <~ print ("* SKILL: " ++ item) ;;;
      _ <~ print (str_mul "=" 50) ;;;
      _ <~ print (">> SUMMARY:" ++ newline ++
                  SkillSummary.skill_summary details_resp) ;;;
      _ <~ print ("---" ++ newline ++ ">> PROJECT BASED IDEAS:" ++ newline ++
                  format_list
                    (SkillSummary.project_based_examples details_resp)) ;;;
      if (i =? top_k - 1)%Z then ret tt
      else for_items top_k (i + 1) rest
  end.

(** [DetailJob.forward(job_description, top_k)]; it returns [None]. *)
Definition forward (job_description : string) (top_k : Z) : M unit :=
  skills_resp <~ call_skill_identifier job_description ;;;
  _ <~ print ("## IDENTIFIED SKILLS: " ++
              format_list (SkillIdentifier.tech_skills skills_resp)) ;;;
  for_items top_k 0 (SkillIdentifier.tech_skills skills_resp).

(** The world before a run, with the model in state [st]. *)
Definition start (st : LM) : world := {| lm := st; trace := [] |}.

End DetailJob.

Arguments lm {LM} w.
Arguments trace {LM} w.
Arguments emit {LM} e w.
Arguments start {LM} st.
Arguments for_items {LM} skill_summary format_list top_k i items.
Arguments forward {LM} skill_identifier skill_summary format_list
  job_description top_k.

(** The items that the loop reaches when it is entered with index [i]: it
    leaves after the item of index [top_k - 1], if there is one. *)
Definition reached (top_k i : Z) (items : list string) : list string :=
  if (i <=? top_k - 1)%Z then firstn (Z.to_nat (top_k - i)) items
  else items.

(** The skills that were sent to the summary predictor, in order. *)
Definition summary_calls (tr : list event) : list string :=
  flat_map (fun e => match e with
                     | Call_skill_summary s => [s]
                     | _ => []
                     end) tr.

(** The lines that were printed, in order. *)
Definition printed (tr : list event) : list string :=
  flat_map (fun e => match e with
                     | Print l => [l]
                     | _ => []
                     end) tr.

(** The job descriptions that were sent to the skill identifier. *)
Definition identifier_calls (tr : list event) : list string :=
  flat_map (fun e => match e with
                     | Call_skill_identifier j => [j]
                     | _ => []
                     end) tr.

(** A language model with canned answers, which counts its calls. *)
Definition canned_skill_identifier (job_description : string) (st : nat)
  : option SkillIdentifier.Prediction * nat :=
  (Some {| SkillIdentifier.tech_skills :=
             ["Python"; "SQL"; "Docker"; "AWS"] |}, S st).

Definition canned_skill_summary (tech_skill : string) (st : nat)
  : option SkillSummary.Prediction * nat :=
  (Some {| SkillSummary.skill_summary := "About " ++ tech_skill;
           SkillSummary.project_based_examples := [tech_skill] |}, S st).

(** The same model with a summary predictor that raises on ["Docker"]. *)
Definition failing_skill_summary (tech_skill : string) (st : nat)
  : option SkillSummary.Prediction * nat :=
  if String.eqb tech_skill "Docker" then (None, S st)
  else canned_skill_summary tech_skill st.

Definition canned_format_list (l : list string) : string :=
  "[" ++ String.concat ", " l ++ "]".

End Dspy.

(** * The user profile of the Pydantic notebook: [UserProfile] *)

Module Pydantic.

Local Open Scope string_scope.

(** The errors of a field, named by the [type] of pydantic's error
    details; [value_error] carries the message of the [ValueError] that
    a validator of the model raised. *)
Inductive error : Type :=
| string_too_short (min_length : nat)
| string_too_long (max_length : nat)
| less_than (lt : Z)
| greater_than_equal (ge : Z)
| less_than_equal (le : Z)
| value_error (msg : string).

Inductive validation (A : Type) : Type :=
| Valid (a : A)
| Invalid (e : error).

Arguments Valid {A} a.
Arguments Invalid {A} e.

(** [str(value)] of an [int], as an f-string formats it. *)
Definition str_int (value : Z) : string :=
  DecimalString.NilZero.string_of_int (Z.to_int value).

Definition upper_char (c : ascii) : ascii :=
  let n := nat_of_ascii c in
  if ((97 <=? n)%nat && (n <=? 122)%nat)%bool
  then ascii_of_nat (n - 32) else c.

(** [s.upper()] *)
Fixpoint upper (s : string) : string :=
  match s with
  | EmptyString => EmptyString
  | String c s' => String (upper_char c) (upper s')
  end.

Module UserProfile.

(** [username: str = Field(min_length=5, max_length=20)], on a [str]. *)
Definition username_field (value : string) : validation string :=
  if (String.length value <? 5)%nat then Invalid (string_too_short 5)
  else if (20 <? String.length value)%nat then Invalid (string_too_long 20)
  else Valid value.

(** The validator [validate_id]. *)
Definition validate_id (value : Z) : validation Z :=
  if (value <=? 0)%Z then
    Invalid (value_error
               ("User ID must be > 0 ! Actual value: " ++ str_int value))
  else Valid value.

(** [id: int = Field(lt=1000)], on an [int]: the constraint of the field
    is checked first, and [validate_id], a validator of mode [after],
    runs on the values that pass it. *)
Definition id_field (value : Z) : validation Z :=
  if (value <? 1000)%Z then validate_id value
  else Invalid (less_than 1000).

(** The serializer [serialize_username], used for JSON. *)
Definition serialize_username (username : string) : string :=
  upper username.

End UserProfile.

End Pydantic.

(** * Facts about the Python and NumPy primitives *)

Example argsort_Z :
  Np.insertion_argsort Z.ltb [3; 1; 2; 1; 0]%Z = [4; 1; 3; 2; 0].
Proof. reflexivity. Qed.

Example slice_last3 : Py.slice_from (-3) [0; 1; 2; 3; 4] = [2; 3; 4].
Proof. reflexivity. Qed.

Example slice_last0 : Py.slice_from (-0) [0; 1; 2; 3; 4] = [0; 1; 2; 3; 4].
Proof. reflexivity. Qed.

Example slice_last9 : Py.slice_from (-9) [0; 1; 2; 3; 4] = [0; 1; 2; 3; 4].
Proof. reflexivity. Qed.

Example slice_neg_top : Py.slice_from (- (-2)) [0; 1; 2; 3; 4] = [2; 3; 4].
Proof. reflexivity. Qed.

Example analyze_query :
  Sk.analyze query = ["the"; "dog"; "chased"; "who"]%string.
Proof. reflexivity. Qed.

Example analyze_short :
  Sk.analyze "A b_c, I am x9 OK!"%string = ["b_c"; "am"; "x9"; "ok"]%string.
Proof. reflexivity. Qed.

Example corpus_vocabulary :
  Sk.sorted_terms (concat (map Sk.analyze corpus)) =
  [ "and"; "barked"; "cat"; "chased"; "dog"; "is"; "loudly"; "mat"; "on";
    "played"; "sat"; "sleeping"; "the"; "together" ]%string.
Proof. reflexivity. Qed.

Example corpus_counts :
  map (Sk.counts (Sk.sorted_terms (concat (map Sk.analyze corpus)))) corpus =
  [ [0; 0; 1; 0; 0; 0; 0; 1; 1; 0; 1; 0; 2; 0];
    [0; 0; 1; 1; 1; 0; 0; 0; 0; 0; 0; 0; 2; 0];
    [1; 0; 1; 0; 1; 0; 0; 0; 0; 1; 0; 0; 1; 1];
    [0; 0; 1; 0; 0; 1; 0; 0; 0; 0; 0; 1; 1; 0];
    [0; 1; 0; 0; 1; 0; 1; 0; 0; 0; 0; 0; 1; 0] ]%nat.
Proof. reflexivity. Qed.

Section ListFacts.
Context {A B : Type}.

Lemma map_fst_combine (l1 : list A) (l2 : list B) :
  length l1 = length l2 -> map fst (combine l1 l2) = l1.
Proof.
  revert l2; induction l1 as [|x l1 IH]; intros [|y l2] H;
    simpl in *; try discriminate; auto.
  f_equal; apply IH; lia.
Qed.

Lemma In_combine_seq (a : list B) (d : B) (k i : nat) (x : B) :
  In (i, x) (combine (seq k (length a)) a) ->
  k <= i < k + length a /\ x = nth (i - k) a d.
Proof.
  revert k; induction a as [|y a IH]; intros k H; simpl in H;
    [contradiction|].
  destruct H as [H|H].
  - inversion H; subst. simpl. replace (i - i) with 0 by lia.
    split; [lia|reflexivity].
  - apply IH in H. destruct H as [Hr Hx]. simpl. split; [lia|].
    replace (i - k) with (S (i - S k)) by lia. exact Hx.
Qed.

Lemma StronglySorted_map (R : A -> A -> Prop) (R' : B -> B -> Prop)
    (f : A -> B) (l : list A) :
  (forall p q, In p l -> In q l -> R p q -> R' (f p) (f q)) ->
  StronglySorted R l -> StronglySorted R' (map f l).
Proof.
  intros HR Hs; induction Hs as [|p l Hs IH Hall]; simpl; constructor.
  - apply IH. intros; apply HR; simpl; auto.
  - apply Forall_forall. intros y Hy. apply in_map_iff in Hy.
    destruct Hy as [q [<- Hq]]. apply HR; simpl; auto.
    rewrite Forall_forall in Hall; auto.
Qed.

Lemma mapM_getitem (l : list A) (d : A) (idx : list nat) :
  Forall (fun i => i < length l) idx ->
  mapM (Py.getitem l) idx = Ok (map (fun i => nth i l d) idx).
Proof.
  induction 1 as [|i idx Hi _ IH]; simpl; [reflexivity|].
  unfold Py.getitem at 1.
  destruct (nth_error l i) as [x|] eqn:E.
  - simpl. rewrite IH. simpl. now rewrite (nth_error_nth _ _ d E).
  - apply nth_error_None in E. lia.
Qed.

Lemma slice_from_all (l : list A) (k : Z) :
  (k = 0 \/ Z.of_nat (length l) <= k)%Z -> Py.slice_from (- k) l = l.
Proof.
  intros H. unfold Py.slice_from.
  destruct (Z.ltb_spec (- k) 0).
  - replace (Z.max (- k + Z.of_nat (length l)) 0) with 0%Z by lia.
    reflexivity.
  - replace (Z.min (- k) (Z.of_nat (length l))) with 0%Z by lia.
    reflexivity.
Qed.

Lemma slice_from_last (l : list A) (k : nat) :
  0 < k <= length l ->
  Py.slice_from (- Z.of_nat k) l = skipn (length l - k) l.
Proof.
  intros H. unfold Py.slice_from.
  destruct (Z.ltb_spec (- Z.of_nat k) 0); [|lia].
  f_equal. lia.
Qed.

Lemma slice_from_incl (l : list A) (s : Z) (x : A) :
  In x (Py.slice_from s l) -> In x l.
Proof.
  unfold Py.slice_from. intros H.
  rewrite <- (firstn_skipn
    (Z.to_nat (if (s <? 0)%Z then Z.max (s + Z.of_nat (length l)) 0
               else Z.min s (Z.of_nat (length l)))) l).
  apply in_or_app; right; exact H.
Qed.

Lemma slice_from_length (l : list A) (k : Z) :
  (0 <= k)%Z ->
  length (Py.slice_from (- k) l) =
  if (k =? 0)%Z then length l else Nat.min (Z.to_nat k) (length l).
Proof.
  intros Hk. unfold Py.slice_from. rewrite length_skipn.
  destruct (Z.eqb_spec k 0) as [->|Hne]; simpl; [lia|].
  destruct (Z.ltb_spec (- k) 0); lia.
Qed.

End ListFacts.

Lemma map_nth_seq {A : Type} (l : list A) (d : A) :
  map (fun i => nth i l d) (seq 0 (length l)) = l.
Proof.
  induction l as [|x l IH]; simpl; [reflexivity|].
  f_equal. rewrite <- seq_shift, map_map. exact IH.
Qed.

Lemma StronglySorted_app {A : Type} (R : A -> A -> Prop) (l1 l2 : list A) :
  StronglySorted R l1 -> StronglySorted R l2 ->
  (forall x y, In x l1 -> In y l2 -> R x y) ->
  StronglySorted R (l1 ++ l2).
Proof.
  intros H1 H2 H12; induction H1 as [|x l1 H1 IH Hx]; simpl; [assumption|].
  constructor.
  - apply IH. intros; apply H12; simpl; auto.
  - apply Forall_app; split; [assumption|].
    apply Forall_forall. intros y Hy. apply H12; simpl; auto.
Qed.

Lemma StronglySorted_rev {A : Type} (R : A -> A -> Prop) (l : list A) :
  StronglySorted R l -> StronglySorted (fun x y => R y x) (rev l).
Proof.
  induction 1 as [|x l Hs IH Hx]; simpl; [constructor|].
  apply StronglySorted_app; [assumption | repeat constructor |].
  intros y z Hy [<-|[]]. apply in_rev in Hy.
  rewrite Forall_forall in Hx; auto.
Qed.

Lemma StronglySorted_skipn {A : Type} (R : A -> A -> Prop) (n : nat)
    (l : list A) :
  StronglySorted R l -> StronglySorted R (skipn n l).
Proof.
  intros H; revert n; induction H as [|x l Hs IH Hx]; intros [|n]; simpl;
    try constructor; auto.
Qed.

Lemma StronglySorted_impl {A : Type} (R R' : A -> A -> Prop) (l : list A) :
  (forall x y, R x y -> R' x y) ->
  StronglySorted R l -> StronglySorted R' l.
Proof.
  intros HR; induction 1 as [|x l Hs IH Hx]; constructor; auto.
  eapply Forall_impl; [|exact Hx]. auto.
Qed.

Lemma slice_from_neg {A : Type} (l : list A) (k : Z) :
  (0 < k)%Z ->
  Py.slice_from (- k) l = skipn (length l - Z.to_nat k) l.
Proof.
  intros Hk. unfold Py.slice_from.
  destruct (Z.ltb_spec (- k) 0); [|lia]. f_equal. lia.
Qed.

Section InsertionSort.
Context {A : Type}.
Variable ltb : A -> A -> bool.

Lemma insert_perm (x : nat * A) (l : list (nat * A)) :
  Permutation (Np.insert ltb x l) (x :: l).
Proof.
  induction l as [|y l IH]; simpl; [reflexivity|].
  destruct (ltb (snd x) (snd y)); [reflexivity|].
  transitivity (y :: x :: l); [now apply perm_skip | apply perm_swap].
Qed.

Lemma fold_insert_perm (l acc : list (nat * A)) :
  Permutation (fold_left (fun acc x => Np.insert ltb x acc) l acc)
              (acc ++ l).
Proof.
  revert acc; induction l as [|x l IH]; intros acc; simpl.
  - now rewrite app_nil_r.
  - rewrite IH. rewrite insert_perm.
    change (x :: acc) with ([x] ++ acc).
    rewrite (Permutation_app_comm [x] acc), <- app_assoc. reflexivity.
Qed.

Lemma sort_pairs_perm (l : list (nat * A)) :
  Permutation (Np.sort_pairs ltb l) l.
Proof. unfold Np.sort_pairs. now rewrite fold_insert_perm. Qed.

Lemma insertion_argsort_perm (a : list A) :
  Permutation (Np.insertion_argsort ltb a) (seq 0 (length a)).
Proof.
  unfold Np.insertion_argsort. rewrite sort_pairs_perm.
  rewrite map_fst_combine; [reflexivity | apply length_seq].
Qed.

Lemma insertion_argsort_length (a : list A) : length (Np.insertion_argsort ltb a) = length a.
Proof.
  rewrite (Permutation_length (insertion_argsort_perm a)). apply length_seq.
Qed.

Lemma insertion_argsort_bound (a : list A) :
  Forall (fun i => i < length a) (Np.insertion_argsort ltb a).
Proof.
  apply Forall_forall. intros i Hi.
  apply (Permutation_in _ (insertion_argsort_perm a)) in Hi.
  apply in_seq in Hi. lia.
Qed.

Lemma insertion_argsort_NoDup (a : list A) : NoDup (Np.insertion_argsort ltb a).
Proof.
  apply (Permutation_NoDup (Permutation_sym (insertion_argsort_perm a))).
  apply seq_NoDup.
Qed.

(** *** Order and stability, for a strict weak order *)

Hypothesis ltb_asym : forall x y, ltb x y = true -> ltb y x = false.
Hypothesis ltb_negtrans :
  forall x y z, ltb x y = false -> ltb y z = false -> ltb x z = false.

Lemma ltb_lt_le (x y z : A) :
  ltb x y = true -> ltb z y = false -> ltb x z = true.
Proof.
  intros Hxy Hzy. destruct (ltb x z) eqn:E; [reflexivity|].
  rewrite (ltb_negtrans _ _ _ E Hzy) in Hxy. discriminate.
Qed.

Lemma insert_sorted (x : nat * A) (l : list (nat * A)) :
  Forall (fun y => fst y < fst x) l ->
  StronglySorted (precedes ltb) l ->
  StronglySorted (precedes ltb) (Np.insert ltb x l).
Proof.
  intros Hidx Hs; induction Hs as [|y l Hs IH Hall]; simpl.
  - constructor; constructor.
  - inversion Hidx as [|? ? Hy Hl]; subst.
    destruct (ltb (snd x) (snd y)) eqn:E.
    + constructor; [constructor; assumption|].
      constructor.
      * split; [now apply ltb_asym | now left].
      * apply Forall_forall. intros z Hz.
        rewrite Forall_forall in Hall. destruct (Hall z Hz) as [Hzy _].
        assert (Hxz : ltb (snd x) (snd z) = true)
          by (apply ltb_lt_le with (y := snd y); assumption).
        split; [now apply ltb_asym | now left].
    + constructor; [now apply IH|].
      apply (Permutation_Forall (Permutation_sym (insert_perm x l))).
      constructor; [|assumption].
      split; [assumption | now right].
Qed.

Lemma fold_insert_sorted (l acc : list (nat * A)) :
  StronglySorted (fun p q => fst p < fst q) l ->
  Forall (fun y => Forall (fun x => fst y < fst x) l) acc ->
  StronglySorted (precedes ltb) acc ->
  StronglySorted (precedes ltb)
    (fold_left (fun acc x => Np.insert ltb x acc) l acc).
Proof.
  revert acc; induction l as [|x l IH]; intros acc Hl Hacc Hs; simpl;
    [assumption|].
  inversion Hl as [|? ? Hl' Hx]; subst.
  apply IH; [assumption| |].
  - apply (Permutation_Forall (Permutation_sym (insert_perm x acc))).
    constructor; [assumption|].
    apply Forall_forall. intros y Hy. rewrite Forall_forall in Hacc.
    specialize (Hacc y Hy). now inversion Hacc.
  - apply insert_sorted; [|assumption].
    apply Forall_forall. intros y Hy. rewrite Forall_forall in Hacc.
    specialize (Hacc y Hy). now inversion Hacc.
Qed.

Lemma combine_seq_increasing (a : list A) (k : nat) :
  StronglySorted (fun p q : nat * A => fst p < fst q)
    (combine (seq k (length a)) a).
Proof.
  revert k; induction a as [|y a IH]; intros k; simpl; constructor.
  - apply IH.
  - apply Forall_forall. intros [i x] Hi.
    apply (In_combine_seq a y) in Hi. simpl. lia.
Qed.

Lemma insertion_argsort_sorted (a : list A) (d : A) :
  StronglySorted (sorts_before ltb a d) (Np.insertion_argsort ltb a).
Proof.
  unfold Np.insertion_argsort.
  apply StronglySorted_map with (R := precedes ltb).
  - intros [i x] [j y] Hp Hq HR.
    apply (Permutation_in _ (sort_pairs_perm _)) in Hp, Hq.
    apply (In_combine_seq a d) in Hp, Hq.
    destruct Hp as [_ ->], Hq as [_ ->].
    rewrite !Nat.sub_0_r in HR. exact HR.
  - apply fold_insert_sorted.
    + apply combine_seq_increasing.
    + constructor.
    + constructor.
Qed.

End InsertionSort.

Section InsertionSortTies.
Context {A : Type}.
Variable ltb : A -> A -> bool.

Lemma insert_last (x : nat * A) (l : list (nat * A)) :
  Forall (fun y => ltb (snd x) (snd y) = false) l ->
  Np.insert ltb x l = l ++ [x].
Proof.
  induction 1 as [|y l Hy _ IH]; simpl; [reflexivity|].
  now rewrite Hy, IH.
Qed.

Lemma fold_insert_ties (l acc : list (nat * A)) :
  (forall x y, In x (acc ++ l) -> In y (acc ++ l) ->
               ltb (snd x) (snd y) = false) ->
  fold_left (fun acc x => Np.insert ltb x acc) l acc = acc ++ l.
Proof.
  revert acc; induction l as [|x l IH]; intros acc H; simpl.
  - now rewrite app_nil_r.
  - rewrite insert_last.
    + rewrite IH; rewrite <- app_assoc; [reflexivity|exact H].
    + apply Forall_forall. intros y Hy.
      apply H; apply in_or_app; simpl; auto.
Qed.

(** On values none of which is below another, the stable sort leaves the
    indices in place. *)
Lemma insertion_argsort_ties (a : list A) :
  (forall x y, In x a -> In y a -> ltb x y = false) ->
  Np.insertion_argsort ltb a = seq 0 (length a).
Proof.
  intros H. unfold Np.insertion_argsort, Np.sort_pairs.
  rewrite fold_insert_ties.
  - simpl. apply map_fst_combine. apply length_seq.
  - simpl. intros [i x] [j y] Hx Hy.
    apply in_combine_r in Hx, Hy. simpl. auto.
Qed.

End InsertionSortTies.

(** * Facts about the comparison of similarities *)

Section RltbFacts.
Local Open Scope R_scope.

Lemma Rltb_true (x y : R) : Vec.Rltb x y = true <-> x < y.
Proof.
  unfold Vec.Rltb. destruct (Rlt_dec x y); split; intros; auto;
    try discriminate; contradiction.
Qed.

Lemma Rltb_false (x y : R) : Vec.Rltb x y = false <-> y <= x.
Proof.
  unfold Vec.Rltb. destruct (Rlt_dec x y); split; intros; auto;
    try discriminate; lra.
Qed.

Lemma Rltb_irrefl (x : R) : Vec.Rltb x x = false.
Proof. apply Rltb_false; lra. Qed.

Lemma Rltb_asym (x y : R) : Vec.Rltb x y = true -> Vec.Rltb y x = false.
Proof. rewrite Rltb_true, Rltb_false; lra. Qed.

Lemma Rltb_negtrans (x y z : R) :
  Vec.Rltb x y = false -> Vec.Rltb y z = false -> Vec.Rltb x z = false.
Proof. rewrite !Rltb_false; lra. Qed.

End RltbFacts.

(** * The contract of [argsort] *)

Lemma insertion_argsort_stable :
  Np.is_stable_argsort (Np.insertion_argsort Vec.Rltb).
Proof.
  intros a. split; [apply insertion_argsort_perm|].
  unfold Np.stable_ascending.
  apply StronglySorted_impl with (R := sorts_before Vec.Rltb a 0%R).
  - unfold sorts_before. intros i j [Hle H].
    apply Rltb_false in Hle. rewrite Rltb_true in H.
    destruct H as [H|H]; [left; exact H|].
    destruct (Rle_lt_or_eq_dec _ _ Hle) as [Hlt|Heq]; [left|right]; auto.
  - apply insertion_argsort_sorted; [exact Rltb_asym | exact Rltb_negtrans].
Qed.

Lemma stable_is_argsort (argsort : list R -> list nat) :
  Np.is_stable_argsort argsort -> Np.is_argsort argsort.
Proof.
  intros H a. destruct (H a) as [Hp Hs]. split; [exact Hp|].
  unfold Np.ascending. eapply StronglySorted_impl; [|exact Hs].
  simpl. intros i j [Hlt|[Heq _]]; lra.
Qed.

Lemma insertion_argsort_is_argsort :
  Np.is_argsort (Np.insertion_argsort Vec.Rltb).
Proof. apply stable_is_argsort, insertion_argsort_stable. Qed.

Section Argsort.
Variable argsort : list R -> list nat.
Hypothesis Hsort : Np.is_argsort argsort.

Lemma argsort_perm (a : list R) :
  Permutation (argsort a) (seq 0 (length a)).
Proof. apply Hsort. Qed.

Lemma argsort_length (a : list R) : length (argsort a) = length a.
Proof.
  rewrite (Permutation_length (argsort_perm a)). apply length_seq.
Qed.

Lemma argsort_bound (a : list R) :
  Forall (fun i => i < length a) (argsort a).
Proof.
  apply Forall_forall. intros i Hi.
  apply (Permutation_in _ (argsort_perm a)) in Hi.
  apply in_seq in Hi. lia.
Qed.

Lemma argsort_NoDup (a : list R) : NoDup (argsort a).
Proof.
  apply (Permutation_NoDup (Permutation_sym (argsort_perm a))).
  apply seq_NoDup.
Qed.

End Argsort.

(** * Shapes of the fitted objects *)

Section Shapes.

Lemma length_scale (row : list nat) (idf : list R) :
  length (Sk.scale row idf) = Nat.min (length row) (length idf).
Proof.
  revert idf; induction row as [|c row IH]; intros [|w idf]; simpl; auto.
Qed.

Lemma length_normalize_row (v : list R) :
  length (Sk.normalize_row v) = length v.
Proof.
  unfold Sk.normalize_row. destruct (Req_dec_T _ _); [reflexivity|].
  apply length_map.
Qed.

Lemma length_counts (vocab : list string) (doc : string) :
  length (Sk.counts vocab doc) = length vocab.
Proof. unfold Sk.counts. apply length_map. Qed.

Lemma transform_rows (v : Sk.TfidfVectorizer) (docs : list string) :
  Sk.transform v docs = map (tfidf_row v) docs.
Proof.
  unfold Sk.transform, Sk.tfidf_transform. rewrite map_map. reflexivity.
Qed.

Lemma length_tfidf_row (v : Sk.TfidfVectorizer) (doc : string) :
  length (tfidf_row v doc) =
  Nat.min (length (Sk.vocabulary_ v)) (length (Sk.idf_ v)).
Proof.
  unfold tfidf_row, raw_row.
  now rewrite length_normalize_row, length_scale, length_counts.
Qed.

Lemma fit_transform_ok (raw : list string) :
  learned_vocabulary raw <> [] ->
  Sk.fit_transform raw = Ok (fitted raw, Sk.transform (fitted raw) raw).
Proof.
  intros H. unfold Sk.fit_transform, fitted, Sk.transform.
  fold (learned_vocabulary raw).
  destruct (learned_vocabulary raw) eqn:E; [contradiction|reflexivity].
Qed.

Lemma fit_transform_inv {raw : list string} {v : Sk.TfidfVectorizer}
    {kb : Sk.matrix} :
  Sk.fit_transform raw = Ok (v, kb) ->
  learned_vocabulary raw <> [] /\ v = fitted raw /\ kb = Sk.transform v raw.
Proof.
  intros H.
  assert (Hv : learned_vocabulary raw <> []).
  { intros E. unfold Sk.fit_transform in H.
    fold (learned_vocabulary raw) in H. rewrite E in H. discriminate. }
  rewrite (fit_transform_ok raw Hv) in H. inversion H; subst. auto.
Qed.

Lemma fit_transform_nonempty {raw : list string} {v : Sk.TfidfVectorizer}
    {kb : Sk.matrix} :
  Sk.fit_transform raw = Ok (v, kb) -> raw <> [].
Proof. intros H ->. discriminate H. Qed.

Lemma fitted_width (raw : list string) :
  length (Sk.idf_ (fitted raw)) = length (Sk.vocabulary_ (fitted raw)).
Proof. simpl. now rewrite length_map, length_seq. Qed.

Lemma kb_length {raw : list string} {v : Sk.TfidfVectorizer}
    {kb : Sk.matrix} :
  Sk.fit_transform raw = Ok (v, kb) -> length kb = length raw.
Proof.
  intros H. apply fit_transform_inv in H. destruct H as (_ & _ & ->).
  rewrite transform_rows. apply length_map.
Qed.

End Shapes.

(** * What [retrieve_documents] returns on a fitted corpus *)

Section Retrieve.
Variable argsort : list R -> list nat.
Hypothesis Hsort : Np.is_argsort argsort.
Variable raw : list string.
Variable vectorizer : Sk.TfidfVectorizer.
Variable kb : Sk.matrix.
Hypothesis Hfit : Sk.fit_transform raw = Ok (vectorizer, kb).

Lemma has_width_kb :
  Sk.has_width (length (Sk.vocabulary_ vectorizer)) kb = true.
Proof.
  destruct (fit_transform_inv Hfit) as (_ & Hv & Hkb).
  rewrite Hkb, transform_rows. unfold Sk.has_width.
  apply forallb_forall. intros r Hr. apply in_map_iff in Hr.
  destruct Hr as [doc [<- _]]. apply Nat.eqb_eq.
  rewrite length_tfidf_row. subst vectorizer. rewrite fitted_width. lia.
Qed.

Lemma cosine_similarity_fitted (query : string) :
  Sk.cosine_similarity (Sk.transform vectorizer [query]) kb =
  Ok [cosine_similarities vectorizer kb query].
Proof.
  destruct (fit_transform_inv Hfit) as (Hne & Hv & Hkb).
  pose proof has_width_kb as Hw.
  pose proof (kb_length Hfit) as Hlen.
  pose proof (fit_transform_nonempty Hfit) as Hraw.
  rewrite transform_rows. simpl map.
  unfold Sk.cosine_similarity.
  destruct kb as [|y kb']; [destruct raw; [congruence|discriminate]|].
  assert (Hq : length (tfidf_row vectorizer query) =
               length (Sk.vocabulary_ vectorizer)).
  { rewrite length_tfidf_row. subst vectorizer.
    rewrite fitted_width. lia. }
  rewrite Hq, Hw.
  assert (Hpos : (1 <=? length (Sk.vocabulary_ vectorizer)) = true).
  { apply Nat.leb_le. subst vectorizer. simpl.
    destruct (learned_vocabulary raw); [congruence|simpl; lia]. }
  rewrite Hpos. simpl. rewrite Hq, Nat.eqb_refl. reflexivity.
Qed.

Lemma length_cosine_similarities (query : string) :
  length (cosine_similarities vectorizer kb query) = length raw.
Proof.
  unfold cosine_similarities. rewrite length_map. apply (kb_length Hfit).
Qed.

Lemma related_docs_indices_bound (query : string) (top_n : Z) :
  Forall (fun i => i < length raw)
    (related_docs_indices argsort vectorizer kb query top_n).
Proof.
  apply Forall_forall. intros i Hi. unfold related_docs_indices in Hi.
  unfold Py.reversed in Hi. apply in_rev in Hi.
  apply slice_from_incl in Hi.
  pose proof (argsort_bound argsort Hsort
                (cosine_similarities vectorizer kb query)) as Hb.
  rewrite Forall_forall in Hb. apply Hb in Hi.
  now rewrite length_cosine_similarities in Hi.
Qed.

(** On a fitted corpus [retrieve_documents] raises nothing and returns
    the documents at [related_docs_indices]. *)
Lemma retrieve_documents_fitted (query : string) (top_n : Z) :
  retrieve_documents argsort query raw vectorizer kb top_n =
  Ok (map (fun i => nth i raw EmptyString)
        (related_docs_indices argsort vectorizer kb query top_n)).
Proof.
  unfold retrieve_documents. rewrite cosine_similarity_fitted.
  simpl bind. unfold Np.flatten. simpl concat. rewrite app_nil_r.
  apply mapM_getitem. apply related_docs_indices_bound.
Qed.

End Retrieve.

Arguments cosine_similarity_fitted {raw vectorizer kb} Hfit query.
Arguments length_cosine_similarities {raw vectorizer kb} Hfit query.
Arguments related_docs_indices_bound {argsort} Hsort {raw vectorizer kb}
  Hfit query top_n.
Arguments retrieve_documents_fitted {argsort} Hsort {raw vectorizer kb}
  Hfit query top_n.

(** * The ranking *)

Section Ranking.
Variable argsort : list R -> list nat.
Hypothesis Hsort : Np.is_argsort argsort.
Variable v : Sk.TfidfVectorizer.
Variable kb : Sk.matrix.
Variable query : string.

(** The ranking is in descending order of similarity. *)
Lemma related_docs_indices_descending (top_n : Z) :
  StronglySorted
    (fun i j => (nth j (cosine_similarities v kb query) 0 <=
                 nth i (cosine_similarities v kb query) 0)%R)
    (related_docs_indices argsort v kb query top_n).
Proof.
  unfold related_docs_indices, Py.reversed, Py.slice_from.
  set (sims := cosine_similarities v kb query).
  apply (StronglySorted_rev (fun i j => (nth i sims 0 <= nth j sims 0)%R)).
  apply StronglySorted_skipn. apply Hsort.
Qed.

Lemma related_docs_indices_all (top_n : Z) :
  (top_n = 0 \/ Z.of_nat (length kb) <= top_n)%Z ->
  related_docs_indices argsort v kb query top_n =
  rev (argsort (cosine_similarities v kb query)).
Proof.
  intros H. unfold related_docs_indices, Py.reversed.
  rewrite slice_from_all; [reflexivity|].
  rewrite (argsort_length argsort Hsort). unfold cosine_similarities.
  now rewrite length_map.
Qed.

Lemma related_docs_indices_all_perm (top_n : Z) :
  (top_n = 0 \/ Z.of_nat (length kb) <= top_n)%Z ->
  Permutation (related_docs_indices argsort v kb query top_n)
              (seq 0 (length kb)).
Proof.
  intros H. rewrite related_docs_indices_all by assumption.
  rewrite <- Permutation_rev, (argsort_perm argsort Hsort).
  unfold cosine_similarities. now rewrite length_map.
Qed.

(** A positive [top_n] keeps the first [top_n] of the whole ranking. *)
Lemma related_docs_indices_firstn (top_n : Z) :
  (0 < top_n)%Z ->
  related_docs_indices argsort v kb query top_n =
  firstn (Z.to_nat top_n) (related_docs_indices argsort v kb query 0).
Proof.
  intros Hk. unfold related_docs_indices, Py.reversed.
  rewrite slice_from_neg by assumption.
  rewrite (slice_from_all _ 0) by (left; reflexivity).
  now rewrite firstn_rev.
Qed.

Lemma related_docs_indices_length (top_n : Z) :
  (0 <= top_n)%Z ->
  length (related_docs_indices argsort v kb query top_n) =
  if (top_n =? 0)%Z then length kb
  else Nat.min (Z.to_nat top_n) (length kb).
Proof.
  intros Hk. unfold related_docs_indices, Py.reversed.
  rewrite length_rev, slice_from_length by assumption.
  rewrite (argsort_length argsort Hsort). unfold cosine_similarities.
  now rewrite length_map.
Qed.

End Ranking.


Section FullRetrieval.
Variable argsort : list R -> list nat.
Hypothesis Hsort : Np.is_argsort argsort.
Variable raw : list string.
Variable vectorizer : Sk.TfidfVectorizer.
Variable kb : Sk.matrix.
Hypothesis Hfit : Sk.fit_transform raw = Ok (vectorizer, kb).

(** Whenever the slice keeps the whole argsort, the result is the whole
    corpus, reordered. *)
Lemma retrieve_documents_all (query : string) (top_n : Z) :
  (top_n = 0 \/ Z.of_nat (length raw) <= top_n)%Z ->
  exists docs,
    retrieve_documents argsort query raw vectorizer kb top_n = Ok docs /\
    Permutation docs raw /\
    retrieve_documents argsort query raw vectorizer kb
      (Z.of_nat (length raw)) = Ok docs.
Proof.
  intros H. rewrite <- (kb_length Hfit) in H.
  rewrite !(retrieve_documents_fitted Hsort Hfit).
  eexists; split; [reflexivity|]. split.
  - rewrite (related_docs_indices_all_perm argsort Hsort _ _ _ _ H).
    rewrite (kb_length Hfit). now rewrite map_nth_seq.
  - rewrite !(related_docs_indices_all argsort Hsort); auto.
    right. rewrite (kb_length Hfit). lia.
Qed.

(** A non-negative [top_n] returns [top_n] documents, or all of them when
    it is zero or exceeds their number. *)
Lemma retrieve_documents_length (query : string) (top_n : Z) :
  (0 <= top_n)%Z ->
  exists docs,
    retrieve_documents argsort query raw vectorizer kb top_n = Ok docs /\
    length docs =
    if (top_n =? 0)%Z then length raw
    else Nat.min (Z.to_nat top_n) (length raw).
Proof.
  intros Hk. rewrite (retrieve_documents_fitted Hsort Hfit).
  eexists; split; [reflexivity|].
  rewrite length_map, (related_docs_indices_length argsort Hsort)
    by assumption.
  now rewrite (kb_length Hfit).
Qed.

End FullRetrieval.

Arguments retrieve_documents_all {argsort} Hsort {raw vectorizer kb}
  Hfit query top_n.
Arguments retrieve_documents_length {argsort} Hsort {raw vectorizer kb}
  Hfit query top_n.

(** * Sorted permutations *)

(** Two lists sorted by an antisymmetric relation, with the same elements,
    are the same list. *)
Lemma sorted_perm_unique {A : Type} (R : A -> A -> Prop) (l1 l2 : list A) :
  (forall x y, In x l1 -> In y l1 -> R x y -> R y x -> x = y) ->
  StronglySorted R l1 -> StronglySorted R l2 -> Permutation l1 l2 ->
  l1 = l2.
Proof.
  intros Hanti H1; revert l2;
    induction H1 as [|x l1 H1 IH Hx]; intros l2 H2 Hp.
  - apply Permutation_nil in Hp. now subst.
  - destruct H2 as [|y l2 H2 Hy];
      [apply Permutation_sym, Permutation_nil in Hp; discriminate|].
    assert (Exy : x = y).
    { assert (Hxin : In x (y :: l2))
        by (apply (Permutation_in _ Hp); left; reflexivity).
      assert (Hyin : In y (x :: l1))
        by (apply (Permutation_in _ (Permutation_sym Hp)); left;
            reflexivity).
      destruct Hxin as [Hxin|Hxin]; [auto|].
      destruct Hyin as [Hyin|Hyin]; [auto|].
      rewrite Forall_forall in Hx, Hy.
      apply Hanti; simpl; auto. }
    subst y. f_equal. apply IH.
    + intros; apply Hanti; simpl; auto.
    + assumption.
    + eapply Permutation_cons_inv; eassumption.
Qed.

(** There is one stable argsort: the insertion sort. *)
Lemma stable_argsort_insertion (argsort : list R -> list nat) (a : list R) :
  Np.is_stable_argsort argsort ->
  argsort a = Np.insertion_argsort Vec.Rltb a.
Proof.
  intros H. destruct (H a) as [Hp Hs].
  destruct (insertion_argsort_stable a) as [Hp' Hs'].
  eapply sorted_perm_unique; [|exact Hs|exact Hs'|].
  - simpl. intros i j _ _ [H1|[H1 H1']] [H2|[H2 H2']]; try lra; lia.
  - rewrite Hp, Hp'. reflexivity.
Qed.

(** * A query without vocabulary terms *)

Section OutOfVocabulary.
Local Open Scope R_scope.

Lemma count_absent (t : string) (toks : list string) :
  (forall tok, In tok toks -> String.eqb tok t = false) ->
  Sk.count t toks = 0%nat.
Proof.
  unfold Sk.count. induction toks as [|tok toks IH]; intros H; simpl;
    [reflexivity|].
  rewrite String.eqb_sym, (H tok) by (simpl; auto).
  apply IH. intros; apply H; simpl; auto.
Qed.

Lemma counts_oov (v : Sk.TfidfVectorizer) (query : string) :
  has_vocabulary_term v query = false ->
  Forall (fun c => c = 0%nat) (Sk.counts (Sk.vocabulary_ v) query).
Proof.
  intros H. unfold Sk.counts. apply Forall_forall. intros c Hc.
  apply in_map_iff in Hc. destruct Hc as [t [<- Ht]].
  apply count_absent. intros tok Htok.
  unfold has_vocabulary_term in H.
  destruct (String.eqb tok t) eqn:E; [|reflexivity].
  assert (Hex : existsb
            (fun tok => existsb (String.eqb tok) (Sk.vocabulary_ v))
            (Sk.analyze query) = true).
  { apply existsb_exists. exists tok. split; [assumption|].
    apply existsb_exists. exists t. auto. }
  congruence.
Qed.

Lemma scale_zero (row : list nat) (idf : list R) :
  Forall (fun c => c = 0%nat) row -> zero_vector (Sk.scale row idf).
Proof.
  intros H; revert idf; induction H as [|c row Hc _ IH]; intros [|w idf];
    simpl; try constructor.
  - subst c. simpl. ring.
  - apply IH.
Qed.

Lemma dot_zero_l (u v : list R) : zero_vector u -> Vec.dot u v = 0.
Proof.
  intros H; revert v; induction H as [|x u Hx _ IH]; intros [|y v]; simpl;
    try reflexivity.
  rewrite IH, Hx. ring.
Qed.

Lemma normalize_row_zero (v : list R) :
  zero_vector v -> Sk.normalize_row v = v.
Proof.
  intros H. unfold Sk.normalize_row.
  destruct (Req_dec_T (Vec.dot v v) 0) as [_|Hne]; [reflexivity|].
  now rewrite dot_zero_l in Hne.
Qed.

Lemma tfidf_row_oov (v : Sk.TfidfVectorizer) (query : string) :
  has_vocabulary_term v query = false ->
  zero_vector (tfidf_row v query).
Proof.
  intros H. unfold tfidf_row, raw_row.
  pose proof (scale_zero _ (Sk.idf_ v) (counts_oov v query H)) as Hz.
  now rewrite normalize_row_zero.
Qed.

(** Every similarity of such a query is zero: the zero row is left as it
    is by the normalisation, nothing is divided by zero. *)
Lemma cosine_similarities_oov (v : Sk.TfidfVectorizer) (kb : Sk.matrix)
    (query : string) :
  has_vocabulary_term v query = false ->
  cosine_similarities v kb query = map (fun _ => 0) kb.
Proof.
  intros H. unfold cosine_similarities. apply map_ext. intros y.
  apply dot_zero_l. rewrite normalize_row_zero; now apply tfidf_row_oov.
Qed.

(** After a stable sort the ranking of such a query is the reversed tail
    of the index range. *)
Lemma related_docs_indices_oov (argsort : list R -> list nat)
    (v : Sk.TfidfVectorizer) (kb : Sk.matrix) (query : string) (top_n : Z) :
  Np.is_stable_argsort argsort ->
  has_vocabulary_term v query = false ->
  related_docs_indices argsort v kb query top_n =
  rev (Py.slice_from (- top_n) (seq 0 (length kb))).
Proof.
  intros Hst H. unfold related_docs_indices, Py.reversed.
  rewrite (stable_argsort_insertion argsort _ Hst).
  rewrite (cosine_similarities_oov v kb query H).
  rewrite insertion_argsort_ties.
  - now rewrite length_map.
  - intros x y Hx Hy. apply in_map_iff in Hx, Hy.
    destruct Hx as [_ [<- _]], Hy as [_ [<- _]]. apply Rltb_irrefl.
Qed.

(** With all similarities tied at zero, a stable sort returns the tail of
    the corpus, last document first. *)
Lemma retrieve_documents_oov (argsort : list R -> list nat)
    (raw : list string) (v : Sk.TfidfVectorizer) (kb : Sk.matrix)
    (query : string) (top_n : Z) :
  Np.is_stable_argsort argsort ->
  Sk.fit_transform raw = Ok (v, kb) ->
  has_vocabulary_term v query = false ->
  (0 < top_n)%Z ->
  retrieve_documents argsort query raw v kb top_n =
  Ok (firstn (Z.to_nat top_n) (rev raw)).
Proof.
  intros Hst Hfit Hoov Hk.
  rewrite (retrieve_documents_fitted (stable_is_argsort _ Hst) Hfit).
  rewrite (related_docs_indices_oov argsort v kb query top_n Hst Hoov).
  rewrite (kb_length Hfit), slice_from_neg by assumption.
  rewrite length_seq, map_rev, <- skipn_map, map_nth_seq.
  now rewrite firstn_rev.
Qed.

End OutOfVocabulary.

(** * Positions in the ranking *)

Section Positions.

Lemma position_In (i : nat) (l : list nat) :
  In i l -> exists p, position i l = Some p.
Proof.
  induction l as [|j l IH]; simpl; [contradiction|].
  intros H. destruct (Nat.eqb_spec i j) as [->|Hne]; [eauto|].
  destruct H as [H|H]; [congruence|].
  destruct (IH H) as [p ->]. simpl. eauto.
Qed.

Lemma position_Some_In (i p : nat) (l : list nat) :
  position i l = Some p -> In i l.
Proof.
  revert p; induction l as [|j l IH]; simpl; intros p H; [discriminate|].
  destruct (Nat.eqb_spec i j) as [->|Hne]; [auto|].
  destruct (position i l) as [p'|]; [|discriminate]. right. eauto.
Qed.

Lemma position_inj (i j p : nat) (l : list nat) :
  position i l = Some p -> position j l = Some p -> i = j.
Proof.
  revert p; induction l as [|x l IH]; simpl; intros p Hi Hj;
    [discriminate|].
  destruct (Nat.eqb_spec i x) as [->|Hix], (Nat.eqb_spec j x) as [->|Hjx];
    auto.
  - destruct (position j l); simpl in Hj; [|discriminate].
    inversion Hi; subst. discriminate.
  - destruct (position i l); simpl in Hi; [|discriminate].
    inversion Hj; subst. discriminate.
  - destruct (position i l) as [pi|]; simpl in Hi; [|discriminate].
    destruct (position j l) as [pj|]; simpl in Hj; [|discriminate].
    apply (IH pi); congruence.
Qed.

Lemma sorted_ranked (R : nat -> nat -> Prop) (l : list nat) (i j : nat) :
  StronglySorted R l -> ranked_before l i j -> R i j.
Proof.
  unfold ranked_before.
  induction 1 as [|x l Hs IH Hx]; simpl; [contradiction|].
  destruct (Nat.eqb_spec i x) as [->|Hix].
  - destruct (Nat.eqb_spec j x) as [->|Hjx]; [lia|].
    destruct (position j l) as [q|] eqn:E; simpl; [|contradiction].
    intros _. rewrite Forall_forall in Hx. apply Hx.
    eapply position_Some_In; eassumption.
  - destruct (position i l) as [p|]; simpl; [|contradiction].
    destruct (Nat.eqb_spec j x) as [->|Hjx]; [lia|].
    destruct (position j l) as [q|]; simpl; [|contradiction].
    intros H. apply IH. lia.
Qed.

Lemma ranked_total (l : list nat) (i j : nat) :
  In i l -> In j l -> i <> j -> ranked_before l i j \/ ranked_before l j i.
Proof.
  intros Hi Hj Hne. unfold ranked_before.
  destruct (position_In _ _ Hi) as [p Hp], (position_In _ _ Hj) as [q Hq].
  rewrite Hp, Hq.
  destruct (Nat.lt_trichotomy p q) as [H|[H|H]]; auto.
  subst q. elim Hne. eapply position_inj; eassumption.
Qed.

End Positions.

Lemma sorted_descending (sims : list R) (idx : list nat) :
  StronglySorted (fun i j => (nth j sims 0 <= nth i sims 0)%R) idx ->
  descending_similarity sims idx.
Proof.
  intros Hs i j Hi Hj Hlt.
  assert (Hne : i <> j) by (intros ->; lra).
  destruct (ranked_total idx i j Hi Hj Hne) as [H|H]; [assumption|].
  apply (sorted_ranked _ _ _ _ Hs) in H. simpl in H. lra.
Qed.


(** * The notebook's fit *)

Lemma cell3_fitted : Sk.fit_transform corpus = Ok (vectorizer, vector_kb).
Proof. apply fit_transform_ok. vm_compute. discriminate. Defined.

(** * The claims on the size and the order of the result *)

(** C1 (as amended). On a fitted corpus, a query none of whose tokens is in
    the vocabulary raises nothing and divides nothing by zero: every
    similarity is zero. For a positive [top_n] the result is not empty: it
    has [min top_n N] documents, and after a stable sort they are the last
    documents of the corpus, last one first. *)
Theorem oov_query_returns_documents
    (argsort : list R -> list nat) (raw : list string)
    (v : Sk.TfidfVectorizer) (kb : Sk.matrix) (query : string) (top_n : Z) :
  Np.is_argsort argsort ->
  Sk.fit_transform raw = Ok (v, kb) ->
  has_vocabulary_term v query = false ->
  (0 < top_n)%Z ->
  cosine_similarities v kb query = map (fun _ => 0%R) kb /\
  exists docs,
    retrieve_documents argsort query raw v kb top_n = Ok docs /\
    length docs = Nat.min (Z.to_nat top_n) (length raw) /\
    docs <> [] /\
    (Np.is_stable_argsort argsort ->
     docs = firstn (Z.to_nat top_n) (rev raw)).
Proof.
  intros Hsort Hfit Hoov Hk.
  split; [now apply cosine_similarities_oov|].
  destruct (retrieve_documents_length Hsort Hfit query top_n)
    as (docs & Hdocs & Hlen); [lia|].
  destruct (Z.eqb_spec top_n 0) as [E|_]; [lia|].
  exists docs. split; [exact Hdocs|]. split; [exact Hlen|]. split.
  - pose proof (fit_transform_nonempty Hfit) as Hne.
    intros ->. simpl in Hlen. destruct raw; [congruence|simpl in Hlen; lia].
  - intros Hst.
    rewrite (retrieve_documents_oov argsort raw v kb query top_n
               Hst Hfit Hoov Hk) in Hdocs.
    now inversion Hdocs.
Qed.

Lemma oov_query_returns_documents_witness :
  cosine_similarities vectorizer vector_kb "zzqx999" =
    map (fun _ => 0%R) vector_kb /\
  exists docs,
    retrieve_documents (Np.insertion_argsort Vec.Rltb) "zzqx999" corpus
      vectorizer vector_kb 2 = Ok docs /\
    length docs = 2 /\
    docs <> [] /\
    docs = [ "the dog barked loudly"; "the cat is sleeping" ]%string.
Proof.
  destruct (oov_query_returns_documents (Np.insertion_argsort Vec.Rltb)
              corpus vectorizer vector_kb "zzqx999" 2)
    as (Hsims & docs & Hdocs & Hlen & Hne & Hstable).
  - exact insertion_argsort_is_argsort.
  - exact cell3_fitted.
  - vm_compute. reflexivity.
  - lia.
  - split; [exact Hsims|]. exists docs.
    split; [exact Hdocs|]. split; [exact Hlen|]. split; [exact Hne|].
    exact (Hstable insertion_argsort_stable).
Defined.

(** C1, refuted as stated: on the notebook's corpus the query "zzqx999"
    has no vocabulary term, and the default [top_n = 3] returns three
    documents. *)
Lemma oov_query_result_not_empty :
  Sk.fit_transform corpus = Ok (vectorizer, vector_kb) /\
  has_vocabulary_term vectorizer "zzqx999" = false /\
  retrieve_documents (Np.insertion_argsort Vec.Rltb) "zzqx999" corpus
    vectorizer vector_kb 3 =
    Ok [ "the dog barked loudly"; "the cat is sleeping";
         "the cat and dog played together" ]%string /\
  retrieve_documents (Np.insertion_argsort Vec.Rltb) "zzqx999" corpus
    vectorizer vector_kb 3 <> Ok [].
Proof.
  assert (Hoov : has_vocabulary_term vectorizer "zzqx999" = false)
    by (vm_compute; reflexivity).
  split; [exact cell3_fitted|]. split; [exact Hoov|].
  rewrite (retrieve_documents_oov _ corpus vectorizer vector_kb "zzqx999" 3
             insertion_argsort_stable cell3_fitted Hoov) by lia.
  split; [reflexivity | discriminate].
Qed.




(** C4. On a non-empty fitted corpus and a query with a vocabulary term,
    [top_n] equal to the corpus size returns a permutation of the
    corpus. *)
Theorem full_top_n_returns_permutation
    (argsort : list R -> list nat) (raw : list string)
    (v : Sk.TfidfVectorizer) (kb : Sk.matrix) (query : string) :
  Np.is_argsort argsort ->
  raw <> [] ->
  Sk.fit_transform raw = Ok (v, kb) ->
  has_vocabulary_term v query = true ->
  exists docs,
    retrieve_documents argsort query raw v kb (Z.of_nat (length raw))
    = Ok docs /\
    Permutation docs raw.
Proof.
  intros Hsort _ Hfit _.
  destruct (retrieve_documents_all Hsort Hfit query (Z.of_nat (length raw)))
    as (docs & Hd & Hp & _); [right; lia|].
  exists docs. auto.
Qed.

Lemma full_top_n_returns_permutation_witness :
  exists docs,
    retrieve_documents (Np.insertion_argsort Vec.Rltb) query corpus
      vectorizer vector_kb 5 = Ok docs /\
    Permutation docs corpus.
Proof.
  apply (full_top_n_returns_permutation (Np.insertion_argsort Vec.Rltb)
           corpus vectorizer vector_kb query).
  - exact insertion_argsort_is_argsort.
  - discriminate.
  - exact cell3_fitted.
  - vm_compute. reflexivity.
Defined.

(** C5. On a fitted corpus of [N] documents, a [top_n] above [N] raises
    nothing and returns exactly the [N] documents that [top_n = N]
    returns. *)
Theorem top_n_above_size_is_clamped
    (argsort : list R -> list nat) (raw : list string)
    (v : Sk.TfidfVectorizer) (kb : Sk.matrix) (query : string) (top_n : Z) :
  Np.is_argsort argsort ->
  Sk.fit_transform raw = Ok (v, kb) ->
  (Z.of_nat (length raw) < top_n)%Z ->
  exists docs,
    retrieve_documents argsort query raw v kb top_n = Ok docs /\
    retrieve_documents argsort query raw v kb (Z.of_nat (length raw))
    = Ok docs /\
    length docs = length raw.
Proof.
  intros Hsort Hfit Hn.
  destruct (retrieve_documents_all Hsort Hfit query top_n)
    as (docs & Hd & Hp & Hsame); [right; lia|].
  exists docs. repeat split; auto. apply (Permutation_length Hp).
Qed.

Lemma top_n_above_size_is_clamped_witness :
  exists docs,
    retrieve_documents (Np.insertion_argsort Vec.Rltb) query corpus
      vectorizer vector_kb 8 = Ok docs /\
    retrieve_documents (Np.insertion_argsort Vec.Rltb) query corpus
      vectorizer vector_kb 5 = Ok docs /\
    length docs = 5.
Proof.
  apply (top_n_above_size_is_clamped (Np.insertion_argsort Vec.Rltb)
           corpus vectorizer vector_kb query 8).
  - exact insertion_argsort_is_argsort.
  - exact cell3_fitted.
  - simpl. lia.
Defined.

(** C6. Fitting the empty corpus raises the empty-vocabulary error of the
    vectorizer: neither a fitted vectorizer nor a matrix is returned. *)
Theorem fit_empty_corpus_raises :
  Sk.fit_transform [] = Raise ValueError_empty_vocabulary /\
  forall v kb, Sk.fit_transform [] <> Ok (v, kb).
Proof. split; [reflexivity | discriminate]. Qed.

(** C10. On a fitted corpus, [top_n = 0] returns all [N] documents, in
    descending order of similarity. *)
Theorem top_n_zero_returns_whole_corpus
    (argsort : list R -> list nat) (raw : list string)
    (v : Sk.TfidfVectorizer) (kb : Sk.matrix) (query : string) :
  Np.is_argsort argsort ->
  Sk.fit_transform raw = Ok (v, kb) ->
  exists docs,
    retrieve_documents argsort query raw v kb 0 = Ok docs /\
    docs = map (fun i => nth i raw EmptyString)
             (related_docs_indices argsort v kb query 0) /\
    length docs = length raw /\
    Permutation docs raw /\
    Permutation (related_docs_indices argsort v kb query 0)
                (seq 0 (length raw)) /\
    StronglySorted
      (fun i j => (nth j (cosine_similarities v kb query) 0 <=
                   nth i (cosine_similarities v kb query) 0)%R)
      (related_docs_indices argsort v kb query 0).
Proof.
  intros Hsort Hfit.
  destruct (retrieve_documents_all Hsort Hfit query 0)
    as (docs & Hd & Hp & _); [left; reflexivity|].
  exists docs. split; [exact Hd|].
  rewrite (retrieve_documents_fitted Hsort Hfit) in Hd.
  inversion Hd as [Hdocs].
  split; [reflexivity|]. rewrite Hdocs.
  split; [apply (Permutation_length Hp)|]. split; [exact Hp|]. split.
  - rewrite <- (kb_length Hfit).
    apply related_docs_indices_all_perm; [exact Hsort | now left].
  - now apply related_docs_indices_descending.
Qed.

Lemma top_n_zero_returns_whole_corpus_witness :
  exists docs,
    retrieve_documents (Np.insertion_argsort Vec.Rltb) query corpus
      vectorizer vector_kb 0 = Ok docs /\
    docs = map (fun i => nth i corpus EmptyString)
             (related_docs_indices (Np.insertion_argsort Vec.Rltb)
                vectorizer vector_kb query 0) /\
    length docs = 5 /\
    Permutation docs corpus /\
    Permutation (related_docs_indices (Np.insertion_argsort Vec.Rltb)
                   vectorizer vector_kb query 0)
                [0; 1; 2; 3; 4] /\
    StronglySorted
      (fun i j =>
         (nth j (cosine_similarities vectorizer vector_kb query) 0 <=
          nth i (cosine_similarities vectorizer vector_kb query) 0)%R)
      (related_docs_indices (Np.insertion_argsort Vec.Rltb)
         vectorizer vector_kb query 0).
Proof.
  apply (top_n_zero_returns_whole_corpus (Np.insertion_argsort Vec.Rltb)
           corpus vectorizer vector_kb query).
  - exact insertion_argsort_is_argsort.
  - exact cell3_fitted.
Defined.



(** * Dot products and normalised rows *)

Section VectorFacts.
Local Open Scope R_scope.

Lemma dot_self_nonneg (v : list R) : 0 <= Vec.dot v v.
Proof. induction v as [|x v IH]; simpl; [lra|nra]. Qed.

Lemma dot_self_zero (v : list R) : Vec.dot v v = 0 -> zero_vector v.
Proof.
  induction v as [|x v IH]; simpl; intros H; constructor.
  - pose proof (dot_self_nonneg v). nra.
  - apply IH. pose proof (dot_self_nonneg v). nra.
Qed.

Lemma dot_map_div (a b : R) (u v : list R) :
  a <> 0 -> b <> 0 ->
  Vec.dot (map (fun x => x / a) u) (map (fun y => y / b) v) =
  Vec.dot u v / (a * b).
Proof.
  intros Ha Hb; revert v; induction u as [|x u IH]; intros [|y v]; simpl;
    try solve [field; split; assumption].
  rewrite IH. field. split; assumption.
Qed.

Lemma dot_map_div_r (b : R) (u v : list R) :
  b <> 0 ->
  Vec.dot u (map (fun y => y / b) v) = Vec.dot u v / b.
Proof.
  intros Hb; revert v; induction u as [|x u IH]; intros [|y v]; simpl;
    try solve [field; assumption].
  rewrite IH. field. assumption.
Qed.

Lemma sq_nonneg (a : R) : 0 <= a * a.
Proof. nra. Qed.

Lemma cauchy_schwarz (u v : list R) :
  Vec.dot u v * Vec.dot u v <= Vec.dot u u * Vec.dot v v.
Proof.
  revert v; induction u as [|x u IH]; intros [|y v]; simpl; try lra.
  specialize (IH v).
  pose proof (dot_self_nonneg u) as HA.
  pose proof (dot_self_nonneg v) as HB.
  set (A := Vec.dot u u) in *. set (B := Vec.dot v v) in *.
  set (C := Vec.dot u v) in *. clearbody A B C.
  assert (Hmix : 2 * (x * y) * C <= x * x * B + A * (y * y)).
  { destruct (Req_dec A 0) as [HA0|HA0].
    - pose proof (sq_nonneg C) as HC. pose proof (sq_nonneg x) as Hx.
      assert (HC0 : C * C = 0) by (rewrite HA0, Rmult_0_l in IH; lra).
      apply Rmult_integral in HC0.
      assert (C = 0) as -> by (destruct HC0; assumption).
      rewrite HA0. pose proof (Rmult_le_pos _ _ Hx HB). lra.
    - assert (0 < A) by lra.
      assert (0 <= A * (x * x * B + A * (y * y) - 2 * (x * y) * C)).
      { replace (A * (x * x * B + A * (y * y) - 2 * (x * y) * C))
          with (x * x * (A * B - C * C) + (A * y - x * C) * (A * y - x * C))
          by ring.
        apply Rplus_le_le_0_compat.
        - apply Rmult_le_pos; [apply sq_nonneg | lra].
        - apply sq_nonneg. }
      apply Rnot_lt_le. intros Hlt.
      assert (0 < A * (2 * (x * y) * C - (x * x * B + A * (y * y))))
        by (apply Rmult_lt_0_compat; lra).
      lra. }
  lra.
Qed.

Lemma normalize_row_unit (v : list R) :
  Vec.dot v v <> 0 ->
  Sk.normalize_row v = map (fun x => x / sqrt (Vec.dot v v)) v /\
  Vec.dot (Sk.normalize_row v) (Sk.normalize_row v) = 1.
Proof.
  intros Hne. unfold Sk.normalize_row.
  destruct (Req_dec_T (Vec.dot v v) 0) as [E|_]; [contradiction|].
  split; [reflexivity|].
  pose proof (dot_self_nonneg v) as Hpos.
  assert (Hs : 0 < sqrt (Vec.dot v v)) by (apply sqrt_lt_R0; lra).
  rewrite dot_map_div by lra.
  rewrite sqrt_sqrt by lra. field. assumption.
Qed.

Lemma normalize_row_idem (v : list R) :
  Sk.normalize_row (Sk.normalize_row v) = Sk.normalize_row v.
Proof.
  destruct (Req_dec (Vec.dot v v) 0) as [E|Hne].
  - rewrite (normalize_row_zero v (dot_self_zero v E)).
    apply normalize_row_zero, dot_self_zero, E.
  - destruct (normalize_row_unit v Hne) as [_ H1].
    unfold Sk.normalize_row at 1. rewrite H1.
    destruct (Req_dec_T 1 0) as [E|_]; [lra|].
    rewrite sqrt_1. rewrite <- (map_id (Sk.normalize_row v)) at 2.
    apply map_ext. intros x. field.
Qed.

Lemma dot_normalize_row_le_1 (v : list R) :
  Vec.dot (Sk.normalize_row v) (Sk.normalize_row v) <= 1.
Proof.
  destruct (Req_dec (Vec.dot v v) 0) as [E|Hne].
  - rewrite (normalize_row_zero v (dot_self_zero v E)). lra.
  - destruct (normalize_row_unit v Hne) as [_ ->]. lra.
Qed.


End VectorFacts.

(** * A query that is a corpus document *)

Section Verbatim.
Local Open Scope R_scope.

Lemma cosine_similarities_fitted (raw : list string)
    (v : Sk.TfidfVectorizer) (kb : Sk.matrix) (query : string) :
  Sk.fit_transform raw = Ok (v, kb) ->
  cosine_similarities v kb query =
  map (fun doc =>
         Vec.dot (Sk.normalize_row (tfidf_row v query))
                 (Sk.normalize_row (tfidf_row v doc))) raw.
Proof.
  intros Hfit. destruct (fit_transform_inv Hfit) as (_ & _ & ->).
  unfold cosine_similarities. rewrite transform_rows, map_map. reflexivity.
Qed.

Lemma nth_cosine_similarities (raw : list string)
    (v : Sk.TfidfVectorizer) (kb : Sk.matrix) (query : string) (j : nat) :
  Sk.fit_transform raw = Ok (v, kb) ->
  (j < length raw)%nat ->
  nth j (cosine_similarities v kb query) 0 =
  Vec.dot (Sk.normalize_row (tfidf_row v query))
          (Sk.normalize_row (tfidf_row v (nth j raw EmptyString))).
Proof.
  intros Hfit Hj. rewrite (cosine_similarities_fitted raw v kb query Hfit).
  set (f := fun doc => Vec.dot _ (Sk.normalize_row (tfidf_row v doc))).
  rewrite (nth_indep _ 0 (f EmptyString)) by (rewrite length_map; lia).
  apply map_nth.
Qed.


End Verbatim.




(** * The weights *)

Section Weights.
Local Open Scope R_scope.

Lemma INR_succ_pos (n : nat) : 0 < INR (n + 1).
Proof. apply lt_0_INR. lia. Qed.

Lemma ln_le_compat (x y : R) : 0 < x -> x <= y -> ln x <= ln y.
Proof.
  intros Hx [Hlt | ->]; [|lra]. left. now apply ln_increasing.
Qed.

Lemma smooth_idf_antitone (n df df' : nat) :
  (df' <= df)%nat -> Sk.smooth_idf n df <= Sk.smooth_idf n df'.
Proof.
  intros H. unfold Sk.smooth_idf.
  pose proof (INR_succ_pos n) as Hn.
  pose proof (INR_succ_pos df) as Hd.
  pose proof (INR_succ_pos df') as Hd'.
  assert (Hle : INR (df' + 1) <= INR (df + 1)) by (apply le_INR; lia).
  apply Rplus_le_compat_r. apply ln_le_compat.
  - apply Rdiv_lt_0_compat; assumption.
  - unfold Rdiv. apply Rmult_le_compat_l; [lra|].
    apply Rinv_le_contravar; assumption.
Qed.

Lemma smooth_idf_ge_1 (n df : nat) :
  (df <= n)%nat -> 1 <= Sk.smooth_idf n df.
Proof.
  intros H. pose proof (smooth_idf_antitone n n df H) as Hle.
  assert (Hn : Sk.smooth_idf n n = 1).
  { unfold Sk.smooth_idf. pose proof (INR_succ_pos n).
    replace (INR (n + 1) / INR (n + 1)) with 1 by (field; lra).
    rewrite ln_1. ring. }
  lra.
Qed.



Lemma nth_scale (row : list nat) (idf : list R) (j : nat) :
  nth j (Sk.scale row idf) 0 = INR (nth j row 0%nat) * nth j idf 0.
Proof.
  revert idf j; induction row as [|c row IH]; intros [|w idf] [|j]; simpl;
    try ring; try apply IH.
Qed.





End Weights.

(** Read that way the formula gives an absent term the weight 1; the
    weight of the code, [Sk.tfidf], is [tf * (log(...) + 1)]. *)
Lemma spec_weight_literal_absent (n df : nat) :
  spec_weight_literal 0 n df = 1%R.
Proof. unfold spec_weight_literal. simpl INR. ring. Qed.


(** Entry [j] of the raw row of a document is the weight [Sk.tfidf] of
    term [j] in it. *)
Lemma fitted_row_entry (raw : list string) (doc : string) (j : nat) :
  nth j (Sk.scale (Sk.counts (Sk.vocabulary_ (fitted raw)) doc)
           (Sk.idf_ (fitted raw))) 0%R =
  if (j <? length (learned_vocabulary raw))%nat then
    Sk.tfidf
      (Sk.count (nth j (learned_vocabulary raw) EmptyString)
         (Sk.analyze doc))
      (length raw)
      (Sk.document_frequency
         (map (Sk.counts (learned_vocabulary raw)) raw) j)
  else 0%R.
Proof.
  rewrite nth_scale. simpl Sk.vocabulary_. simpl Sk.idf_.
  destruct (Nat.ltb_spec j (length (learned_vocabulary raw))) as [Hj|Hj].
  - unfold Sk.tfidf. f_equal.
    + f_equal. unfold Sk.counts.
      set (f := fun t => Sk.count t (Sk.analyze doc)).
      rewrite (nth_indep _ 0%nat (f EmptyString))
        by (rewrite length_map; exact Hj).
      apply map_nth.
    + set (g := fun j0 => Sk.smooth_idf (length raw) _).
      rewrite (nth_indep _ 0%R (g 0%nat))
        by (rewrite length_map, length_seq; exact Hj).
      rewrite map_nth, seq_nth by exact Hj. reflexivity.
  - rewrite (nth_overflow (map _ _))
      by (rewrite length_map, length_seq; exact Hj).
    ring.
Qed.





(** * The ranking of the notebook's query *)

Section Cosine.
Local Open Scope R_scope.

(** The similarity of two documents with non-zero rows is the cosine of
    their raw rows. *)
Lemma cosine_of_raw_rows (v : Sk.TfidfVectorizer) (q d : string) :
  0 < Vec.dot (raw_row v q) (raw_row v q) ->
  0 < Vec.dot (raw_row v d) (raw_row v d) ->
  Vec.dot (Sk.normalize_row (tfidf_row v q))
          (Sk.normalize_row (tfidf_row v d)) =
  Vec.dot (raw_row v q) (raw_row v d) /
  (sqrt (Vec.dot (raw_row v q) (raw_row v q)) *
   sqrt (Vec.dot (raw_row v d) (raw_row v d))).
Proof.
  intros Hq Hd. unfold tfidf_row.
  rewrite !normalize_row_idem.
  destruct (normalize_row_unit (raw_row v q)) as [-> _]; [lra|].
  destruct (normalize_row_unit (raw_row v d)) as [-> _]; [lra|].
  apply dot_map_div.
  - pose proof (sqrt_lt_R0 _ Hq). lra.
  - pose proof (sqrt_lt_R0 _ Hd). lra.
Qed.

(** Cosines with a common left vector compare as their squares do. *)
Lemma cosine_lt (Q W1 W2 D1 D2 : R) :
  0 < Q -> 0 < W1 -> 0 < W2 -> 0 <= D1 -> 0 <= D2 ->
  D1 * D1 * W2 < D2 * D2 * W1 ->
  D1 / (sqrt Q * sqrt W1) < D2 / (sqrt Q * sqrt W2).
Proof.
  intros HQ HW1 HW2 HD1 HD2 H.
  pose proof (sqrt_lt_R0 _ HQ) as Hq.
  pose proof (sqrt_lt_R0 _ HW1) as H1.
  pose proof (sqrt_lt_R0 _ HW2) as H2.
  pose proof (sqrt_sqrt W1 (Rlt_le _ _ HW1)) as E1.
  pose proof (sqrt_sqrt W2 (Rlt_le _ _ HW2)) as E2.
  set (q := sqrt Q) in *. set (s1 := sqrt W1) in *.
  set (s2 := sqrt W2) in *. clearbody q s1 s2.
  assert (Hcross : D1 * s2 < D2 * s1).
  { apply Rsqr_incrst_0.
    - unfold Rsqr.
      replace (D1 * s2 * (D1 * s2)) with (D1 * D1 * (s2 * s2)) by ring.
      replace (D2 * s1 * (D2 * s1)) with (D2 * D2 * (s1 * s1)) by ring.
      now rewrite E1, E2.
    - apply Rmult_le_pos; lra.
    - apply Rmult_le_pos; lra. }
  apply (Rmult_lt_reg_r (q * s1 * s2)).
  - repeat apply Rmult_lt_0_compat; lra.
  - replace (D1 / (q * s1) * (q * s1 * s2)) with (D1 * s2)
      by (field; lra).
    replace (D2 / (q * s2) * (q * s1 * s2)) with (D2 * s1)
      by (field; lra).
    exact Hcross.
Qed.

Lemma ln_upper (x : R) : 0 < x -> ln x <= x - 1.
Proof.
  intros Hx. pose proof (exp_ineq1_le (ln x)) as H.
  rewrite exp_ln in H by assumption. lra.
Qed.

Lemma ln_lower (x : R) : 0 < x -> 1 - / x <= ln x.
Proof.
  intros Hx. pose proof (exp_ineq1_le (- ln x)) as H.
  rewrite exp_Ropp, exp_ln in H by assumption. lra.
Qed.

(** Five similarities in the order 3 < 0 < 2 < 4 < 1: every argsort
    returns the same indices. *)
Lemma argsort_five (argsort : list R -> list nat) (s0 s1 s2 s3 s4 : R) :
  Np.is_argsort argsort ->
  s3 < s0 -> s0 < s2 -> s2 < s4 -> s4 < s1 ->
  argsort [s0; s1; s2; s3; s4] = [3; 0; 2; 4; 1]%nat.
Proof.
  intros Hsort H30 H02 H24 H41.
  destruct (Hsort [s0; s1; s2; s3; s4]) as [Hp Hs].
  unfold Np.ascending in Hs.
  eapply sorted_perm_unique; [|exact Hs| |].
  - simpl. intros i j Hi Hj Hij Hji.
    apply (Permutation_in _ Hp) in Hi, Hj. simpl in Hi, Hj.
    destruct Hi as [<-|[<-|[<-|[<-|[<-|[]]]]]];
      destruct Hj as [<-|[<-|[<-|[<-|[<-|[]]]]]];
      simpl in Hij, Hji; try reflexivity; lra.
  - repeat constructor; simpl; lra.
  - rewrite Hp. simpl.
    apply NoDup_Permutation.
    + repeat constructor; simpl; intuition lia.
    + repeat constructor; simpl; intuition lia.
    + intros x. simpl. intuition lia.
Qed.

End Cosine.

Section NotebookRanking.
Local Open Scope R_scope.

(** The idf of a term found in one, three, four and all five of the five
    documents. *)
Local Abbreviation u := (Sk.smooth_idf 5 1).
Local Abbreviation b := (Sk.smooth_idf 5 3).
Local Abbreviation a := (Sk.smooth_idf 5 4).
Local Abbreviation e := (Sk.smooth_idf 5 5).

Lemma vectorizer_idf :
  Sk.idf_ vectorizer = [u; u; a; u; b; u; u; u; u; u; u; u; e; u].
Proof.
  assert (Hdf :
    map (Sk.document_frequency
           (map (Sk.counts (learned_vocabulary corpus)) corpus))
      (seq 0 (length (learned_vocabulary corpus))) =
    [1; 1; 4; 1; 3; 1; 1; 1; 1; 1; 1; 1; 5; 1]%nat)
    by (vm_compute; reflexivity).
  change (Sk.idf_ vectorizer) with
    (map (fun j => Sk.smooth_idf 5
            (Sk.document_frequency
               (map (Sk.counts (learned_vocabulary corpus)) corpus) j))
       (seq 0 (length (learned_vocabulary corpus)))).
  rewrite <- (map_map
    (Sk.document_frequency
       (map (Sk.counts (learned_vocabulary corpus)) corpus))
    (Sk.smooth_idf 5)).
  rewrite Hdf. reflexivity.
Qed.

Lemma idf_all : e = 1.
Proof. apply Rle_antisym; [|apply smooth_idf_ge_1; lia].
  unfold Sk.smooth_idf. simpl INR.
  match goal with |- ln ?x + 1 <= 1 => replace x with 1 by field end.
  rewrite ln_1. lra.
Qed.

Lemma smooth_idf_bounds (df : nat) (r : R) :
  INR (5 + 1) / INR (df + 1) = r -> 0 < r ->
  2 - / r <= Sk.smooth_idf 5 df <= r.
Proof.
  intros Hr Hpos. unfold Sk.smooth_idf. rewrite Hr.
  pose proof (ln_upper r Hpos). pose proof (ln_lower r Hpos). lra.
Qed.

Lemma idf_one : 5 / 3 <= u <= 3.
Proof.
  destruct (smooth_idf_bounds 1 3) as [H1 H2];
    [simpl; field | lra |].
  lra.
Qed.

Lemma idf_three : 4 / 3 <= b <= 3 / 2.
Proof.
  destruct (smooth_idf_bounds 3 (3 / 2)) as [H1 H2];
    [simpl; field | lra |].
  replace (/ (3 / 2)) with (2 / 3) in H1 by field. lra.
Qed.

Lemma idf_four : 7 / 6 <= a <= 6 / 5.
Proof.
  destruct (smooth_idf_bounds 4 (6 / 5)) as [H1 H2];
    [simpl; field | lra |].
  replace (/ (6 / 5)) with (5 / 6) in H1 by field. lra.
Qed.

Lemma raw_row_at (doc : string) (c : list nat) :
  Sk.counts (Sk.vocabulary_ vectorizer) doc = c ->
  raw_row vectorizer doc =
  Sk.scale c [u; u; a; u; b; u; u; u; u; u; u; u; e; u].
Proof. intros <-. unfold raw_row. now rewrite vectorizer_idf. Qed.

Lemma raw_row_query :
  raw_row vectorizer query =
  [0; 0; 0; u; b; 0; 0; 0; 0; 0; 0; 0; e; 0].
Proof.
  rewrite (raw_row_at query [0; 0; 0; 1; 1; 0; 0; 0; 0; 0; 0; 0; 1; 0]%nat)
    by (vm_compute; reflexivity).
  cbn [Sk.scale INR]. repeat f_equal; ring.
Qed.

Ltac raw_dots c :=
  rewrite ?raw_row_query;
  match goal with
  | |- context [raw_row vectorizer ?d] =>
      rewrite (raw_row_at d c) by (vm_compute; reflexivity)
  end;
  cbn [Sk.scale INR Vec.dot]; rewrite idf_all; ring.

Lemma dot_query_query :
  Vec.dot (raw_row vectorizer query) (raw_row vectorizer query) =
  u * u + b * b + 1.
Proof.
  rewrite raw_row_query. cbn [Vec.dot]. rewrite idf_all. ring.
Qed.

Lemma dots_doc0 :
  Vec.dot (raw_row vectorizer query)
    (raw_row vectorizer "the cat sat on the mat") = 2 /\
  Vec.dot (raw_row vectorizer "the cat sat on the mat")
    (raw_row vectorizer "the cat sat on the mat") =
  a * a + 3 * (u * u) + 4.
Proof.
  split; raw_dots [0; 0; 1; 0; 0; 0; 0; 1; 1; 0; 1; 0; 2; 0]%nat.
Qed.

Lemma dots_doc1 :
  Vec.dot (raw_row vectorizer query)
    (raw_row vectorizer "the dog chased the cat") = 2 + b * b + u * u /\
  Vec.dot (raw_row vectorizer "the dog chased the cat")
    (raw_row vectorizer "the dog chased the cat") =
  a * a + u * u + b * b + 4.
Proof.
  split; raw_dots [0; 0; 1; 1; 1; 0; 0; 0; 0; 0; 0; 0; 2; 0]%nat.
Qed.

Lemma dots_doc2 :
  Vec.dot (raw_row vectorizer query)
    (raw_row vectorizer "the cat and dog played together") = 1 + b * b /\
  Vec.dot (raw_row vectorizer "the cat and dog played together")
    (raw_row vectorizer "the cat and dog played together") =
  3 * (u * u) + a * a + b * b + 1.
Proof.
  split; raw_dots [1; 0; 1; 0; 1; 0; 0; 0; 0; 1; 0; 0; 1; 1]%nat.
Qed.

Lemma dots_doc3 :
  Vec.dot (raw_row vectorizer query)
    (raw_row vectorizer "the cat is sleeping") = 1 /\
  Vec.dot (raw_row vectorizer "the cat is sleeping")
    (raw_row vectorizer "the cat is sleeping") =
  a * a + 2 * (u * u) + 1.
Proof.
  split; raw_dots [0; 0; 1; 0; 0; 1; 0; 0; 0; 0; 0; 1; 1; 0]%nat.
Qed.

Lemma dots_doc4 :
  Vec.dot (raw_row vectorizer query)
    (raw_row vectorizer "the dog barked loudly") = 1 + b * b /\
  Vec.dot (raw_row vectorizer "the dog barked loudly")
    (raw_row vectorizer "the dog barked loudly") =
  2 * (u * u) + b * b + 1.
Proof.
  split; raw_dots [0; 1; 0; 0; 1; 0; 1; 0; 0; 0; 0; 0; 1; 0]%nat.
Qed.

Lemma sq_bounds (x lo hi : R) :
  0 <= lo -> lo <= x <= hi -> lo * lo <= x * x <= hi * hi.
Proof. intros Hlo [H1 H2]. split; apply Rmult_le_compat; lra. Qed.

Lemma notebook_similarities :
  cosine_similarities vectorizer vector_kb query =
  [ sim "the cat sat on the mat"; sim "the dog chased the cat";
    sim "the cat and dog played together"; sim "the cat is sleeping";
    sim "the dog barked loudly" ].
Proof.
  rewrite (cosine_similarities_fitted corpus vectorizer vector_kb query
             cell3_fitted).
  reflexivity.
Qed.

Lemma notebook_similarities_order :
  sim "the cat is sleeping" < sim "the cat sat on the mat" /\
  sim "the cat sat on the mat" < sim "the cat and dog played together" /\
  sim "the cat and dog played together" < sim "the dog barked loudly" /\
  sim "the dog barked loudly" < sim "the dog chased the cat".
Proof.
  destruct dots_doc0 as [D0 W0], dots_doc1 as [D1 W1],
    dots_doc2 as [D2 W2], dots_doc3 as [D3 W3], dots_doc4 as [D4 W4].
  pose proof dot_query_query as Q.
  pose proof (sq_bounds u (5 / 3) 3 ltac:(lra) idf_one) as HU.
  pose proof (sq_bounds b (4 / 3) (3 / 2) ltac:(lra) idf_three) as HB.
  pose proof (sq_bounds a (7 / 6) (6 / 5) ltac:(lra) idf_four) as HA.
  set (U := u * u) in *. set (B := b * b) in *. set (A := a * a) in *.
  clearbody U B A.
  unfold sim. rewrite !cosine_of_raw_rows by lra.
  rewrite D0, D1, D2, D3, D4, W0, W1, W2, W3, W4, Q.
  assert (HDD : 0 < (1 + B) * (1 + B)) by (apply Rmult_lt_0_compat; lra).
  repeat split; apply cosine_lt; try lra.
  - (* 0 < 2 : (1 + B)^2 is at least (25/9)^2 *)
    assert (H : 25 / 9 * (25 / 9) <= (1 + B) * (1 + B))
      by (apply Rmult_le_compat; lra).
    assert (H' : 25 / 9 * (25 / 9) * (A + 3 * U + 4) <=
                 (1 + B) * (1 + B) * (A + 3 * U + 4))
      by (apply Rmult_le_compat_r; lra).
    lra.
  - (* 2 < 4 : the same dot product, the shorter row *)
    apply Rmult_lt_compat_l; lra.
  - (* 4 < 1 : the dot product is at least twice as large *)
    assert (H : 2 * (1 + B) * (2 * (1 + B)) <=
                (2 + B + U) * (2 + B + U))
      by (apply Rmult_le_compat; lra).
    assert (H' : 2 * (1 + B) * (2 * (1 + B)) * (2 * U + B + 1) <=
                 (2 + B + U) * (2 + B + U) * (2 * U + B + 1))
      by (apply Rmult_le_compat_r; lra).
    assert (H'' : (1 + B) * (1 + B) * (A + U + B + 4) <
                  (1 + B) * (1 + B) * (4 * (2 * U + B + 1)))
      by (apply Rmult_lt_compat_l; lra).
    lra.
Qed.

End NotebookRanking.

(** C3. On the notebook's corpus, the query "the dog chased who ?" with
    [top_n = 3] returns documents 1, 4 and 2, in that order. *)
Theorem notebook_query_top_three (argsort : list R -> list nat) :
  Np.is_argsort argsort ->
  Sk.fit_transform corpus = Ok (vectorizer, vector_kb) /\
  retrieve_documents argsort "the dog chased who ?" corpus vectorizer
    vector_kb 3 =
  Ok [ "the dog chased the cat"; "the dog barked loudly";
       "the cat and dog played together" ]%string.
Proof.
  intros Hsort. split; [exact cell3_fitted|]. fold query.
  rewrite (retrieve_documents_fitted Hsort cell3_fitted).
  unfold related_docs_indices. rewrite notebook_similarities.
  destruct notebook_similarities_order as (H30 & H02 & H24 & H41).
  rewrite (argsort_five argsort _ _ _ _ _ Hsort H30 H02 H24 H41).
  reflexivity.
Qed.

Lemma notebook_query_top_three_witness :
  Sk.fit_transform corpus = Ok (vectorizer, vector_kb) /\
  retrieve_documents (Np.insertion_argsort Vec.Rltb) "the dog chased who ?"
    corpus vectorizer vector_kb 3 =
  Ok [ "the dog chased the cat"; "the dog barked loudly";
       "the cat and dog played together" ]%string.
Proof.
  apply (notebook_query_top_three (Np.insertion_argsort Vec.Rltb)).
  exact insertion_argsort_is_argsort.
Defined.

(** * More on [retrieve_documents]: sizes, bounds and errors *)

Section RetrieveMore.
Variable argsort : list R -> list nat.
Hypothesis Hsort : Np.is_argsort argsort.
Variable raw : list string.
Variable vectorizer : Sk.TfidfVectorizer.
Variable kb : Sk.matrix.
Hypothesis Hfit : Sk.fit_transform raw = Ok (vectorizer, kb).

(** With a fitted vectorizer and its matrix, whatever list is passed as
    [corpus] is only indexed by the ranking. *)
Lemma retrieve_documents_indexing (query : string) (docs : list string)
    (top_n : Z) :
  retrieve_documents argsort query docs vectorizer kb top_n =
  mapM (Py.getitem docs)
    (related_docs_indices argsort vectorizer kb query top_n).
Proof.
  unfold retrieve_documents. rewrite (cosine_similarity_fitted Hfit).
  simpl bind. unfold Np.flatten. simpl concat. now rewrite app_nil_r.
Qed.

Lemma related_docs_indices_NoDup (query : string) (top_n : Z) :
  NoDup (related_docs_indices argsort vectorizer kb query top_n).
Proof.
  unfold related_docs_indices, Py.reversed, Py.slice_from.
  apply NoDup_rev.
  set (a := argsort _). set (n := Z.to_nat _).
  pose proof (argsort_NoDup argsort Hsort
                (cosine_similarities vectorizer kb query)) as H.
  fold a in H. rewrite <- (firstn_skipn n a) in H.
  now apply NoDup_app_remove_l in H.
Qed.

(** A negative [top_n] keeps all but the last [- top_n] of the whole
    ranking. *)
Lemma related_docs_indices_negative (query : string) (top_n : Z) :
  (top_n < 0)%Z ->
  related_docs_indices argsort vectorizer kb query top_n =
  firstn (length raw - Z.to_nat (- top_n))
    (related_docs_indices argsort vectorizer kb query 0).
Proof.
  intros Hneg. unfold related_docs_indices, Py.reversed.
  rewrite (slice_from_all _ 0) by (left; reflexivity).
  set (a := argsort (cosine_similarities vectorizer kb query)).
  assert (Hlen : length a = length raw).
  { unfold a. rewrite (argsort_length argsort Hsort).
    apply (length_cosine_similarities Hfit). }
  rewrite firstn_rev, Hlen. unfold Py.slice_from. rewrite Hlen.
  destruct (Z.ltb_spec (- top_n) 0); [lia|].
  f_equal. f_equal. lia.
Qed.

End RetrieveMore.

Arguments retrieve_documents_indexing {argsort raw vectorizer kb} Hfit
  query docs top_n.
Arguments related_docs_indices_NoDup {argsort} Hsort vectorizer kb query top_n.
Arguments related_docs_indices_negative {argsort} Hsort {raw vectorizer kb}
  Hfit query top_n.

Lemma mapM_getitem_out_of_range {A : Type} (l : list A) (idx : list nat)
    (i : nat) :
  In i idx -> length l <= i ->
  mapM (Py.getitem l) idx = Raise IndexError.
Proof.
  intros Hin Hi. induction idx as [|j idx IH]; simpl; [contradiction|].
  unfold Py.getitem at 1.
  destruct (nth_error l j) as [x|] eqn:E; simpl; [|reflexivity].
  destruct Hin as [->|Hin].
  - apply nth_error_None in Hi. congruence.
  - now rewrite (IH Hin).
Qed.

(** X1. A negative [top_n] raises nothing: the [- top_n] least similar
    documents are dropped and the others are returned, most similar
    first. *)
Theorem negative_top_n_drops_least_similar
    (argsort : list R -> list nat) (raw : list string)
    (v : Sk.TfidfVectorizer) (kb : Sk.matrix) (query : string) (top_n : Z) :
  Np.is_argsort argsort ->
  Sk.fit_transform raw = Ok (v, kb) ->
  (top_n < 0)%Z ->
  exists ranked docs,
    retrieve_documents argsort query raw v kb 0 = Ok ranked /\
    retrieve_documents argsort query raw v kb top_n = Ok docs /\
    docs = firstn (length raw - Z.to_nat (- top_n)) ranked /\
    length docs = length raw - Z.to_nat (- top_n).
Proof.
  intros Hsort Hfit Hneg.
  rewrite !(retrieve_documents_fitted Hsort Hfit).
  rewrite (related_docs_indices_negative Hsort Hfit query top_n Hneg).
  eexists; eexists. split; [reflexivity|]. split; [reflexivity|].
  split; [symmetry; apply firstn_map|].
  rewrite length_map, length_firstn.
  rewrite (related_docs_indices_length argsort Hsort) by lia.
  simpl. rewrite (kb_length Hfit). lia.
Qed.

Lemma negative_top_n_drops_least_similar_witness :
  exists ranked docs,
    retrieve_documents (Np.insertion_argsort Vec.Rltb) query corpus
      vectorizer vector_kb 0 = Ok ranked /\
    retrieve_documents (Np.insertion_argsort Vec.Rltb) query corpus
      vectorizer vector_kb (-2) = Ok docs /\
    docs = firstn 3 ranked /\
    length docs = 3.
Proof.
  apply (negative_top_n_drops_least_similar (Np.insertion_argsort Vec.Rltb)
           corpus vectorizer vector_kb query (-2)).
  - exact insertion_argsort_is_argsort.
  - exact cell3_fitted.
  - lia.
Defined.

(** X2. For positive numbers [m <= n], the result for [top_n = m] is the
    first [m] documents of the result for [top_n = n]: a larger [top_n]
    only appends. *)
Theorem smaller_top_n_is_prefix
    (argsort : list R -> list nat) (raw : list string)
    (v : Sk.TfidfVectorizer) (kb : Sk.matrix) (query : string) (m n : Z) :
  Np.is_argsort argsort ->
  Sk.fit_transform raw = Ok (v, kb) ->
  (0 < m <= n)%Z ->
  exists docs_m docs_n,
    retrieve_documents argsort query raw v kb m = Ok docs_m /\
    retrieve_documents argsort query raw v kb n = Ok docs_n /\
    docs_m = firstn (Z.to_nat m) docs_n.
Proof.
  intros Hsort Hfit Hmn.
  rewrite !(retrieve_documents_fitted Hsort Hfit).
  rewrite (related_docs_indices_firstn argsort v kb query m) by lia.
  rewrite (related_docs_indices_firstn argsort v kb query n) by lia.
  eexists; eexists. split; [reflexivity|]. split; [reflexivity|].
  rewrite firstn_map. f_equal.
  rewrite firstn_firstn. f_equal. lia.
Qed.

Lemma smaller_top_n_is_prefix_witness :
  exists docs_m docs_n,
    retrieve_documents (Np.insertion_argsort Vec.Rltb) query corpus
      vectorizer vector_kb 2 = Ok docs_m /\
    retrieve_documents (Np.insertion_argsort Vec.Rltb) query corpus
      vectorizer vector_kb 4 = Ok docs_n /\
    docs_m = firstn 2 docs_n.
Proof.
  apply (smaller_top_n_is_prefix (Np.insertion_argsort Vec.Rltb)
           corpus vectorizer vector_kb query 2 4).
  - exact insertion_argsort_is_argsort.
  - exact cell3_fitted.
  - lia.
Defined.

(** X3. Whatever [top_n] is, the result is made of corpus documents taken
    at distinct positions: nothing is invented, no position is returned
    twice, and there are never more documents than the corpus has. *)
Theorem result_is_drawn_from_corpus
    (argsort : list R -> list nat) (raw : list string)
    (v : Sk.TfidfVectorizer) (kb : Sk.matrix) (query : string) (top_n : Z) :
  Np.is_argsort argsort ->
  Sk.fit_transform raw = Ok (v, kb) ->
  exists idx,
    retrieve_documents argsort query raw v kb top_n =
      Ok (map (fun i => nth i raw EmptyString) idx) /\
    NoDup idx /\
    Forall (fun i => i < length raw) idx /\
    length idx <= length raw /\
    Forall (fun d => In d raw) (map (fun i => nth i raw EmptyString) idx).
Proof.
  intros Hsort Hfit.
  exists (related_docs_indices argsort v kb query top_n).
  pose proof (related_docs_indices_NoDup Hsort v kb query top_n) as Hnd.
  pose proof (related_docs_indices_bound Hsort Hfit query top_n) as Hb.
  split; [apply (retrieve_documents_fitted Hsort Hfit)|].
  split; [exact Hnd|]. split; [exact Hb|]. split.
  - rewrite <- (length_seq (length raw) 0).
    apply NoDup_incl_length; [exact Hnd|].
    intros i Hi. rewrite Forall_forall in Hb. apply in_seq.
    specialize (Hb i Hi). lia.
  - apply Forall_forall. intros d Hd. apply in_map_iff in Hd.
    destruct Hd as [i [<- Hi]]. apply nth_In.
    rewrite Forall_forall in Hb. now apply Hb.
Qed.

Lemma result_is_drawn_from_corpus_witness :
  exists idx,
    retrieve_documents (Np.insertion_argsort Vec.Rltb) query corpus
      vectorizer vector_kb (-1) =
      Ok (map (fun i => nth i corpus EmptyString) idx) /\
    NoDup idx /\
    Forall (fun i => i < 5) idx /\
    length idx <= 5 /\
    Forall (fun d => In d corpus)
      (map (fun i => nth i corpus EmptyString) idx).
Proof.
  apply (result_is_drawn_from_corpus (Np.insertion_argsort Vec.Rltb)
           corpus vectorizer vector_kb query (-1)).
  - exact insertion_argsort_is_argsort.
  - exact cell3_fitted.
Defined.

(** X4. Documents appended to the corpus list after the fit are never
    returned: the result is the one for the list that was fitted. *)
Theorem documents_added_after_fit_are_ignored
    (argsort : list R -> list nat) (raw added : list string)
    (v : Sk.TfidfVectorizer) (kb : Sk.matrix) (query : string) (top_n : Z) :
  Np.is_argsort argsort ->
  Sk.fit_transform raw = Ok (v, kb) ->
  retrieve_documents argsort query (raw ++ added) v kb top_n =
  retrieve_documents argsort query raw v kb top_n.
Proof.
  intros Hsort Hfit.
  rewrite (retrieve_documents_fitted Hsort Hfit).
  rewrite (retrieve_documents_indexing Hfit).
  pose proof (related_docs_indices_bound Hsort Hfit query top_n) as Hb.
  rewrite (mapM_getitem (raw ++ added) EmptyString).
  - f_equal. apply map_ext_in. intros i Hi.
    rewrite Forall_forall in Hb. apply app_nth1. now apply Hb.
  - eapply Forall_impl; [|exact Hb]. simpl. intros i Hi.
    rewrite length_app. lia.
Qed.

Lemma documents_added_after_fit_are_ignored_witness :
  retrieve_documents (Np.insertion_argsort Vec.Rltb) query
    (corpus ++ ["the dog chased who ?"%string]) vectorizer vector_kb 3 =
  retrieve_documents (Np.insertion_argsort Vec.Rltb) query corpus
    vectorizer vector_kb 3.
Proof.
  apply (documents_added_after_fit_are_ignored
           (Np.insertion_argsort Vec.Rltb) corpus
           ["the dog chased who ?"%string] vectorizer vector_kb query 3).
  - exact insertion_argsort_is_argsort.
  - exact cell3_fitted.
Defined.

(** X5. With a corpus list shorter than the fitted one, a call that asks
    for the whole ranking ([top_n] zero or at least the fitted size) raises
    [IndexError]. *)
Theorem shorter_corpus_raises_index_error
    (argsort : list R -> list nat) (raw docs : list string)
    (v : Sk.TfidfVectorizer) (kb : Sk.matrix) (query : string) (top_n : Z) :
  Np.is_argsort argsort ->
  Sk.fit_transform raw = Ok (v, kb) ->
  length docs < length raw ->
  (top_n = 0 \/ Z.of_nat (length raw) <= top_n)%Z ->
  retrieve_documents argsort query docs v kb top_n = Raise IndexError.
Proof.
  intros Hsort Hfit Hshort Hall.
  rewrite (retrieve_documents_indexing Hfit).
  apply mapM_getitem_out_of_range with (i := length raw - 1); [|lia].
  rewrite <- (kb_length Hfit) in Hall.
  apply (Permutation_in _
           (Permutation_sym
              (related_docs_indices_all_perm argsort Hsort v kb query top_n
                 Hall))).
  rewrite (kb_length Hfit). apply in_seq. lia.
Qed.

Lemma shorter_corpus_raises_index_error_witness :
  retrieve_documents (Np.insertion_argsort Vec.Rltb) query
    ["the cat sat on the mat"%string] vectorizer vector_kb 5 =
  Raise IndexError.
Proof.
  apply (shorter_corpus_raises_index_error (Np.insertion_argsort Vec.Rltb)
           corpus ["the cat sat on the mat"%string] vectorizer vector_kb
           query 5).
  - exact insertion_argsort_is_argsort.
  - exact cell3_fitted.
  - simpl. lia.
  - right. simpl. lia.
Defined.

Lemma fitted_vocabulary_nonempty (raw : list string)
    (v : Sk.TfidfVectorizer) (kb : Sk.matrix) :
  Sk.fit_transform raw = Ok (v, kb) -> 1 <= length (Sk.vocabulary_ v).
Proof.
  intros Hfit. destruct (fit_transform_inv Hfit) as (Hne & -> & _).
  simpl. destruct (learned_vocabulary raw); [congruence|simpl; lia].
Qed.

Lemma fitted_row_width (raw : list string) (v : Sk.TfidfVectorizer)
    (kb : Sk.matrix) (doc : string) :
  Sk.fit_transform raw = Ok (v, kb) ->
  length (tfidf_row v doc) = length (Sk.vocabulary_ v).
Proof.
  intros Hfit. rewrite length_tfidf_row.
  destruct (fit_transform_inv Hfit) as (_ & -> & _).
  rewrite fitted_width. lia.
Qed.

(** X6. A matrix fitted by another vectorizer, whose vocabulary has a
    different size, is refused: [cosine_similarity] raises its shape error
    before anything is ranked, whatever the other arguments are. *)
Theorem foreign_matrix_raises_shape_error
    (argsort : list R -> list nat) (raw1 raw2 docs : list string)
    (v1 v2 : Sk.TfidfVectorizer) (kb1 kb2 : Sk.matrix) (query : string)
    (top_n : Z) :
  Sk.fit_transform raw1 = Ok (v1, kb1) ->
  Sk.fit_transform raw2 = Ok (v2, kb2) ->
  length (Sk.vocabulary_ v1) <> length (Sk.vocabulary_ v2) ->
  retrieve_documents argsort query docs v1 kb2 top_n =
  Raise ValueError_shape.
Proof.
  intros Hfit1 Hfit2 Hdiff. unfold retrieve_documents.
  rewrite transform_rows. simpl map.
  pose proof (fitted_row_width raw1 v1 kb1 query Hfit1) as Hq.
  pose proof (fit_transform_nonempty Hfit2) as Hne2.
  destruct (fit_transform_inv Hfit2) as (_ & _ & Hkb2).
  rewrite transform_rows in Hkb2.
  destruct raw2 as [|d2 raw2]; [congruence|].
  simpl in Hkb2. rewrite Hkb2.
  unfold Sk.cosine_similarity. rewrite Hq.
  assert (Hw : Sk.has_width (length (Sk.vocabulary_ v1))
                 (tfidf_row v2 d2 :: map (tfidf_row v2) raw2) = false).
  { simpl. rewrite (fitted_row_width _ v2 kb2 d2 Hfit2).
    apply Nat.eqb_neq in Hdiff. rewrite Nat.eqb_sym in Hdiff.
    now rewrite Hdiff. }
  rewrite Hw, andb_false_r. reflexivity.
Qed.

Lemma foreign_matrix_raises_shape_error_witness :
  retrieve_documents (Np.insertion_argsort Vec.Rltb) query corpus vectorizer
    (Sk.transform (fitted corpus_same_words) corpus_same_words) 3 =
  Raise ValueError_shape.
Proof.
  apply (foreign_matrix_raises_shape_error (Np.insertion_argsort Vec.Rltb)
           corpus corpus_same_words corpus vectorizer
           (fitted corpus_same_words) vector_kb
           (Sk.transform (fitted corpus_same_words) corpus_same_words)
           query 3).
  - exact cell3_fitted.
  - apply fit_transform_ok. vm_compute. discriminate.
  - vm_compute. lia.
Defined.

(** * The values of the similarities *)

Section SimilarityValues.
Local Open Scope R_scope.

Lemma document_frequency_le (X : list (list nat)) (j : nat) :
  (Sk.document_frequency X j <= length X)%nat.
Proof. unfold Sk.document_frequency. apply filter_length_le. Qed.

Lemma fitted_idf_ge_1 (raw : list string) :
  Forall (fun w => 1 <= w) (Sk.idf_ (fitted raw)).
Proof.
  simpl. apply Forall_forall. intros w Hw. apply in_map_iff in Hw.
  destruct Hw as [j [<- _]]. apply smooth_idf_ge_1.
  eapply Nat.le_trans; [apply document_frequency_le|].
  rewrite length_map. lia.
Qed.

Lemma scale_nonneg (row : list nat) (idf : list R) :
  Forall (fun w => 1 <= w) idf -> nonneg_vector (Sk.scale row idf).
Proof.
  intros H; revert row; induction H as [|w idf Hw _ IH]; intros [|c row];
    simpl; constructor.
  - apply Rmult_le_pos; [apply pos_INR | lra].
  - apply IH.
Qed.

Lemma normalize_row_nonneg (v : list R) :
  nonneg_vector v -> nonneg_vector (Sk.normalize_row v).
Proof.
  intros H. unfold Sk.normalize_row.
  destruct (Req_dec_T (Vec.dot v v) 0) as [_|Hne]; [exact H|].
  pose proof (dot_self_nonneg v) as Hpos.
  assert (Hs : 0 < sqrt (Vec.dot v v)) by (apply sqrt_lt_R0; lra).
  unfold nonneg_vector in *. rewrite Forall_forall in *.
  intros y Hy. apply in_map_iff in Hy. destruct Hy as [x [<- Hx]].
  apply Rmult_le_pos; [now apply H|].
  left. now apply Rinv_0_lt_compat.
Qed.

Lemma dot_nonneg (u w : list R) :
  nonneg_vector u -> nonneg_vector w -> 0 <= Vec.dot u w.
Proof.
  intros Hu; revert w; induction Hu as [|x u Hx _ IH]; intros [|y w] Hw;
    simpl; try lra.
  inversion Hw; subst.
  pose proof (IH w H2). pose proof (Rmult_le_pos x y Hx H1). lra.
Qed.

Lemma dot_normalized_le_1 (u w : list R) :
  Vec.dot (Sk.normalize_row u) (Sk.normalize_row w) <= 1.
Proof.
  pose proof (cauchy_schwarz (Sk.normalize_row u) (Sk.normalize_row w))
    as Hcs.
  pose proof (dot_normalize_row_le_1 u) as Hu.
  pose proof (dot_normalize_row_le_1 w) as Hw.
  pose proof (dot_self_nonneg (Sk.normalize_row u)) as Hu0.
  pose proof (dot_self_nonneg (Sk.normalize_row w)) as Hw0.
  set (c := Vec.dot (Sk.normalize_row u) (Sk.normalize_row w)) in *.
  set (a := Vec.dot (Sk.normalize_row u) (Sk.normalize_row u)) in *.
  set (b := Vec.dot (Sk.normalize_row w) (Sk.normalize_row w)) in *.
  clearbody a b c.
  apply Rnot_lt_le. intros Hc.
  assert (Hab : a * b <= 1 * 1) by (apply Rmult_le_compat; lra).
  assert (Hcc : 1 * 1 < c * c) by (apply Rmult_le_0_lt_compat; lra).
  lra.
Qed.

Lemma tfidf_row_nonneg (raw : list string) (v : Sk.TfidfVectorizer)
    (kb : Sk.matrix) (doc : string) :
  Sk.fit_transform raw = Ok (v, kb) -> nonneg_vector (tfidf_row v doc).
Proof.
  intros Hfit. destruct (fit_transform_inv Hfit) as (_ & -> & _).
  unfold tfidf_row, raw_row. apply normalize_row_nonneg, scale_nonneg.
  apply fitted_idf_ge_1.
Qed.

End SimilarityValues.

(** The cosine of the rows of a query and of a document lies in the unit
    interval. *)
Lemma similarity_range (raw : list string) (v : Sk.TfidfVectorizer)
    (kb : Sk.matrix) (query doc : string) :
  Sk.fit_transform raw = Ok (v, kb) ->
  (0 <= Vec.dot (Sk.normalize_row (tfidf_row v query))
                (Sk.normalize_row (tfidf_row v doc)) <= 1)%R.
Proof.
  intros Hfit. split.
  - apply dot_nonneg; apply normalize_row_nonneg;
      apply (tfidf_row_nonneg raw v kb _ Hfit).
  - apply dot_normalized_le_1.
Qed.



(** * The vocabulary as a set *)

Lemma vocab_insert_In (t x : string) (l : list string) :
  In x (Sk.vocab_insert t l) <-> x = t \/ In x l.
Proof.
  induction l as [|u l IH]; simpl; [intuition|].
  destruct (String.compare t u) eqn:E; simpl.
  - apply String.compare_eq_iff in E. subst u. intuition.
  - intuition.
  - rewrite IH. intuition.
Qed.

Lemma fold_vocab_insert_In (x : string) (terms acc : list string) :
  In x (fold_left (fun acc t => Sk.vocab_insert t acc) terms acc) <->
  In x terms \/ In x acc.
Proof.
  revert acc; induction terms as [|t terms IH]; intros acc; simpl;
    [intuition|].
  rewrite IH, vocab_insert_In. intuition.
Qed.

Lemma sorted_terms_In (x : string) (terms : list string) :
  In x (Sk.sorted_terms terms) <-> In x terms.
Proof.
  unfold Sk.sorted_terms. rewrite fold_vocab_insert_In. simpl. intuition.
Qed.

Lemma learned_vocabulary_In (t : string) (raw : list string) :
  In t (learned_vocabulary raw) <->
  exists doc, In doc raw /\ In t (Sk.analyze doc).
Proof.
  unfold learned_vocabulary. rewrite sorted_terms_In, in_concat. split.
  - intros [toks [Htoks Ht]]. apply in_map_iff in Htoks.
    destruct Htoks as [doc [<- Hdoc]]. eauto.
  - intros [doc [Hdoc Ht]]. exists (Sk.analyze doc). split; [|exact Ht].
    now apply in_map.
Qed.

Lemma count_pos_iff (t : string) (toks : list string) :
  0 < Sk.count t toks <-> In t toks.
Proof.
  unfold Sk.count. induction toks as [|u toks IH]; simpl; [lia|].
  destruct (String.eqb_spec t u) as [->|Hne]; simpl.
  - split; [auto|lia].
  - rewrite IH. split; [auto|]. intros [H|H]; [congruence|exact H].
Qed.

(** * Positive similarities *)

Section PositiveSimilarity.
Local Open Scope R_scope.

Lemma dot_pos_overlap (u w : list R) :
  nonneg_vector u -> nonneg_vector w ->
  (0 < Vec.dot u w <-> overlap u w).
Proof.
  intros Hu; revert w; induction Hu as [|x u Hx Hu IH]; intros w Hw.
  - simpl. split; [lra|]. intros [[|i] [H _]]; simpl in H; lra.
  - destruct Hw as [|y w Hy Hw].
    + simpl. split; [lra|]. intros [[|i] [_ H]]; simpl in H; lra.
    + simpl. specialize (IH w Hw).
      pose proof (dot_nonneg u w Hu Hw) as Hd.
      pose proof (Rmult_le_pos x y Hx Hy) as Hxy.
      split.
      * intros Hpos. destruct (Rlt_dec 0 (x * y)) as [Hp|Hn].
        -- exists 0%nat. simpl.
           destruct Hx as [Hx|<-]; [|rewrite Rmult_0_l in Hp; lra].
           destruct Hy as [Hy|<-]; [|rewrite Rmult_0_r in Hp; lra].
           split; assumption.
        -- assert (H : 0 < Vec.dot u w) by lra.
           apply IH in H. destruct H as [i Hi]. exists (S i). exact Hi.
      * intros [[|i] [H1 H2]]; simpl in H1, H2.
        -- pose proof (Rmult_lt_0_compat x y H1 H2). lra.
        -- assert (H : 0 < Vec.dot u w) by (apply IH; exists i; auto).
           lra.
Qed.

Lemma nth_normalize_row_pos (u : list R) (i : nat) :
  nonneg_vector u ->
  (0 < nth i (Sk.normalize_row u) 0 <-> 0 < nth i u 0).
Proof.
  intros Hu. unfold Sk.normalize_row.
  destruct (Req_dec_T (Vec.dot u u) 0) as [_|Hne]; [reflexivity|].
  pose proof (dot_self_nonneg u) as Hpos.
  assert (Hs : 0 < sqrt (Vec.dot u u)) by (apply sqrt_lt_R0; lra).
  set (s := sqrt (Vec.dot u u)) in *.
  set (f := fun x => x / s).
  replace 0 with (f 0) at 2 by (unfold f, Rdiv; ring).
  rewrite map_nth. unfold f, Rdiv.
  pose proof (Rinv_0_lt_compat s Hs) as Hinv.
  split; intros H.
  - apply Rnot_le_lt. intros Hle.
    assert (nth i u 0 * / s <= 0 * / s)
      by (apply Rmult_le_compat_r; lra).
    lra.
  - now apply Rmult_lt_0_compat.
Qed.

Lemma overlap_normalize_row (u w : list R) :
  nonneg_vector u -> nonneg_vector w ->
  (overlap (Sk.normalize_row u) (Sk.normalize_row w) <-> overlap u w).
Proof.
  intros Hu Hw. unfold overlap. split; intros [i [H1 H2]]; exists i.
  - now rewrite nth_normalize_row_pos in H1, H2.
  - now rewrite !nth_normalize_row_pos.
Qed.

(** A raw weight is positive exactly for the vocabulary terms that occur
    in the document. *)
Lemma raw_row_pos (raw : list string) (doc : string) (i : nat) :
  0 < nth i (raw_row (fitted raw) doc) 0 <->
  (i < length (learned_vocabulary raw))%nat /\
  In (nth i (learned_vocabulary raw) EmptyString) (Sk.analyze doc).
Proof.
  unfold raw_row. rewrite fitted_row_entry.
  destruct (Nat.ltb_spec i (length (learned_vocabulary raw))) as [Hi|Hi].
  - rewrite <- count_pos_iff. unfold Sk.tfidf.
    set (c := Sk.count _ _).
    assert (Hidf : 1 <= Sk.smooth_idf (length raw)
                     (Sk.document_frequency
                        (map (Sk.counts (learned_vocabulary raw)) raw) i)).
    { apply smooth_idf_ge_1.
      eapply Nat.le_trans; [apply document_frequency_le|].
      rewrite length_map. lia. }
    split.
    + intros H. split; [exact Hi|].
      destruct c as [|c]; [simpl in H; lra | lia].
    + intros [_ H]. apply Rmult_lt_0_compat; [|lra].
      apply lt_0_INR. exact H.
  - split; [lra | lia].
Qed.

End PositiveSimilarity.

(** The similarity of a document is positive exactly when it shares a
    token with the query. *)
Lemma similarity_pos_iff
    (raw : list string) (v : Sk.TfidfVectorizer) (kb : Sk.matrix)
    (query doc : string) (j : nat) :
  Sk.fit_transform raw = Ok (v, kb) ->
  nth_error raw j = Some doc ->
  ((0 < nth j (cosine_similarities v kb query) 0)%R <->
   shares_token query doc).
Proof.
  intros Hfit Hj.
  assert (Hlt : j < length raw) by (apply nth_error_Some; congruence).
  assert (Hdoc : In doc raw) by (eapply nth_error_In; eassumption).
  rewrite (nth_cosine_similarities raw v kb query j Hfit Hlt).
  rewrite (nth_error_nth _ _ EmptyString Hj).
  destruct (fit_transform_inv Hfit) as (_ & -> & _).
  unfold tfidf_row. rewrite !normalize_row_idem.
  assert (Hnn : forall d, nonneg_vector (raw_row (fitted raw) d))
    by (intros d; apply scale_nonneg, fitted_idf_ge_1).
  rewrite dot_pos_overlap by (apply normalize_row_nonneg, Hnn).
  rewrite overlap_normalize_row by apply Hnn.
  unfold overlap, shares_token. split.
  - intros [i [Hq Hd]]. apply raw_row_pos in Hq, Hd.
    exists (nth i (learned_vocabulary raw) EmptyString).
    split; [apply Hq | apply Hd].
  - intros [t [Hq Hd]].
    assert (Hv : In t (learned_vocabulary raw))
      by (apply learned_vocabulary_In; eauto).
    destruct (In_nth _ _ EmptyString Hv) as [i [Hi Hnth]].
    exists i. rewrite !raw_row_pos, Hnth. auto.
Qed.

(** Without a shared token the similarity is exactly zero. *)
Lemma similarity_zero
    (raw : list string) (v : Sk.TfidfVectorizer) (kb : Sk.matrix)
    (query doc : string) (j : nat) :
  Sk.fit_transform raw = Ok (v, kb) ->
  nth_error raw j = Some doc ->
  ~ shares_token query doc ->
  nth j (cosine_similarities v kb query) 0%R = 0%R.
Proof.
  intros Hfit Hj Hno.
  assert (Hlt : j < length raw) by (apply nth_error_Some; congruence).
  pose proof (similarity_pos_iff raw v kb query doc j Hfit Hj) as Hiff.
  rewrite (nth_cosine_similarities raw v kb query j Hfit Hlt) in *.
  destruct (similarity_range raw v kb query (nth j raw EmptyString) Hfit)
    as [[Hpos|Hz] _]; [|now symmetry].
  apply Hiff in Hpos. contradiction.
Qed.

(** X8. A corpus document has a positive similarity to the query exactly
    when the two share a token; otherwise its similarity is zero. *)
Theorem similarity_positive_iff_shared_token
    (raw : list string) (v : Sk.TfidfVectorizer) (kb : Sk.matrix)
    (query doc : string) (j : nat) :
  Sk.fit_transform raw = Ok (v, kb) ->
  nth_error raw j = Some doc ->
  ((0 < nth j (cosine_similarities v kb query) 0)%R <->
   shares_token query doc) /\
  (~ shares_token query doc ->
   nth j (cosine_similarities v kb query) 0%R = 0%R).
Proof.
  intros Hfit Hj. split.
  - exact (similarity_pos_iff raw v kb query doc j Hfit Hj).
  - exact (similarity_zero raw v kb query doc j Hfit Hj).
Qed.

Lemma similarity_positive_iff_shared_token_witness :
  ((0 < nth 4 (cosine_similarities vectorizer vector_kb query) 0)%R <->
   shares_token query "the dog barked loudly") /\
  (~ shares_token query "the dog barked loudly" ->
   nth 4 (cosine_similarities vectorizer vector_kb query) 0%R = 0%R).
Proof.
  apply (similarity_positive_iff_shared_token corpus vectorizer vector_kb
           query "the dog barked loudly" 4).
  - exact cell3_fitted.
  - reflexivity.
Defined.

(** X9. Of two returned documents, one that shares a token with the query
    stands before one that shares none. *)
Theorem sharing_documents_rank_first
    (argsort : list R -> list nat) (raw : list string)
    (v : Sk.TfidfVectorizer) (kb : Sk.matrix) (query : string) (top_n : Z)
    (i j : nat) (doc_i doc_j : string) :
  Np.is_argsort argsort ->
  Sk.fit_transform raw = Ok (v, kb) ->
  nth_error raw i = Some doc_i ->
  nth_error raw j = Some doc_j ->
  shares_token query doc_i ->
  ~ shares_token query doc_j ->
  In i (related_docs_indices argsort v kb query top_n) ->
  In j (related_docs_indices argsort v kb query top_n) ->
  retrieve_documents argsort query raw v kb top_n =
    Ok (map (fun k => nth k raw EmptyString)
          (related_docs_indices argsort v kb query top_n)) /\
  ranked_before (related_docs_indices argsort v kb query top_n) i j.
Proof.
  intros Hsort Hfit Hi Hj Hshare Hnone Hini Hinj.
  split; [apply (retrieve_documents_fitted Hsort Hfit)|].
  pose proof (similarity_pos_iff raw v kb query doc_i i Hfit Hi) as Hpos.
  pose proof (similarity_zero raw v kb query doc_j j Hfit Hj) as Hzero.
  apply (sorted_descending (cosine_similarities v kb query)); auto.
  - now apply related_docs_indices_descending.
  - rewrite (Hzero Hnone). now apply Hpos.
Qed.

(** X10. When some corpus document shares a token with the query and
    [top_n] is positive, the first returned document shares a token with
    the query. *)
Theorem first_result_shares_a_token
    (argsort : list R -> list nat) (raw : list string)
    (v : Sk.TfidfVectorizer) (kb : Sk.matrix) (query doc : string)
    (top_n : Z) :
  Np.is_argsort argsort ->
  Sk.fit_transform raw = Ok (v, kb) ->
  In doc raw ->
  shares_token query doc ->
  (0 < top_n)%Z ->
  exists first docs,
    retrieve_documents argsort query raw v kb top_n = Ok (first :: docs) /\
    In first raw /\
    shares_token query first.
Proof.
  intros Hsort Hfit Hdoc Hshare Htop.
  destruct (In_nth_error _ _ Hdoc) as [k Hk].
  assert (Hklt : k < length raw) by (apply nth_error_Some; congruence).
  pose proof (similarity_pos_iff raw v kb query doc k Hfit Hk) as Hpos.
  apply Hpos in Hshare.
  pose proof (related_docs_indices_descending argsort Hsort v kb query 0)
    as Hsorted.
  pose proof (related_docs_indices_all_perm argsort Hsort v kb query 0
                (or_introl eq_refl)) as Hperm.
  pose proof (related_docs_indices_bound Hsort Hfit query 0) as Hbound.
  rewrite (kb_length Hfit) in Hperm.
  rewrite (retrieve_documents_fitted Hsort Hfit).
  rewrite (related_docs_indices_firstn argsort v kb query top_n Htop).
  destruct (related_docs_indices argsort v kb query 0) as [|i rest] eqn:E.
  { apply Permutation_length in Hperm. rewrite length_seq in Hperm.
    simpl in Hperm. lia. }
  assert (Hin : In k (i :: rest)).
  { apply (Permutation_in _ (Permutation_sym Hperm)). apply in_seq. lia. }
  assert (Hi : i < length raw) by (inversion Hbound; assumption).
  assert (Hsim : (0 < nth i (cosine_similarities v kb query) 0)%R).
  { destruct Hin as [->|Hin]; [exact Hshare|].
    inversion Hsorted as [|? ? _ Hall]; subst.
    rewrite Forall_forall in Hall. specialize (Hall k Hin).
    simpl in Hall. lra. }
  destruct (nth_error raw i) as [first|] eqn:Ei;
    [|apply nth_error_None in Ei; lia].
  pose proof (similarity_pos_iff raw v kb query first i Hfit Ei)
    as Hpos_i.
  destruct (Z.to_nat top_n) as [|n] eqn:En; [lia|].
  simpl. rewrite (nth_error_nth _ _ EmptyString Ei).
  exists first, (map (fun k0 => nth k0 raw EmptyString) (firstn n rest)).
  split; [reflexivity|]. split; [eapply nth_error_In; eassumption|].
  now apply Hpos_i.
Qed.

Lemma sharing_documents_rank_first_witness :
  retrieve_documents (Np.insertion_argsort Vec.Rltb) "dog" corpus
    vectorizer vector_kb 0 =
    Ok (map (fun k => nth k corpus EmptyString)
          (related_docs_indices (Np.insertion_argsort Vec.Rltb)
             vectorizer vector_kb "dog" 0)) /\
  ranked_before
    (related_docs_indices (Np.insertion_argsort Vec.Rltb)
       vectorizer vector_kb "dog" 0) 1 0.
Proof.
  assert (Hin : forall i, i < 5 ->
            In i (related_docs_indices (Np.insertion_argsort Vec.Rltb)
                    vectorizer vector_kb "dog" 0)).
  { intros i Hi.
    apply (Permutation_in _
             (Permutation_sym
                (related_docs_indices_all_perm _
                   insertion_argsort_is_argsort vectorizer vector_kb
                   "dog" 0 (or_introl eq_refl)))).
    rewrite (kb_length cell3_fitted). apply in_seq. simpl. lia. }
  apply (sharing_documents_rank_first (Np.insertion_argsort Vec.Rltb)
           corpus vectorizer vector_kb "dog" 0 1 0
           "the dog chased the cat" "the cat sat on the mat").
  - exact insertion_argsort_is_argsort.
  - exact cell3_fitted.
  - reflexivity.
  - reflexivity.
  - exists "dog"%string. split; vm_compute; auto.
  - intros [t [H1 H2]]. vm_compute in H1, H2.
    destruct H1 as [<-|[]]. intuition discriminate.
  - apply Hin. lia.
  - apply Hin. lia.
Defined.

Lemma first_result_shares_a_token_witness :
  exists first docs,
    retrieve_documents (Np.insertion_argsort Vec.Rltb) "dog" corpus
      vectorizer vector_kb 1 = Ok (first :: docs) /\
    In first corpus /\
    shares_token "dog" first.
Proof.
  apply (first_result_shares_a_token (Np.insertion_argsort Vec.Rltb)
           corpus vectorizer vector_kb "dog" "the dog chased the cat" 1).
  - exact insertion_argsort_is_argsort.
  - exact cell3_fitted.
  - simpl. auto.
  - exists "dog"%string. split; vm_compute; auto.
  - lia.
Defined.

(** * The query as a bag of words *)

(** X11. The result depends on the query only through the number of times
    each vocabulary term occurs in it: the order of the words, their
    letter case, punctuation, one-letter words and words outside the
    vocabulary change nothing. *)
Theorem query_is_a_bag_of_vocabulary_terms
    (argsort : list R -> list nat) (query1 query2 : string)
    (docs : list string) (v : Sk.TfidfVectorizer) (kb : Sk.matrix)
    (top_n : Z) :
  (forall t, In t (Sk.vocabulary_ v) ->
             Sk.count t (Sk.analyze query1) =
             Sk.count t (Sk.analyze query2)) ->
  retrieve_documents argsort query1 docs v kb top_n =
  retrieve_documents argsort query2 docs v kb top_n.
Proof.
  intros H. unfold retrieve_documents, Sk.transform. simpl map.
  assert (Hc : Sk.counts (Sk.vocabulary_ v) query1 =
               Sk.counts (Sk.vocabulary_ v) query2)
    by (unfold Sk.counts; apply map_ext_in; exact H).
  now rewrite Hc.
Qed.

Lemma query_is_a_bag_of_vocabulary_terms_witness :
  retrieve_documents (Np.insertion_argsort Vec.Rltb)
    "the dog chased who ?" corpus vectorizer vector_kb 3 =
  retrieve_documents (Np.insertion_argsort Vec.Rltb)
    "Chased, a DOG... (the) x zzqx999!" corpus vectorizer vector_kb 3.
Proof.
  apply (query_is_a_bag_of_vocabulary_terms (Np.insertion_argsort Vec.Rltb)
           "the dog chased who ?" "Chased, a DOG... (the) x zzqx999!"
           corpus vectorizer vector_kb 3).
  intros t Ht. vm_compute in Ht.
  repeat (destruct Ht as [<-|Ht]; [vm_compute; reflexivity|]).
  contradiction.
Defined.

Section Tokenizer.

Lemma list_ascii_of_string_app (s1 s2 : string) :
  list_ascii_of_string (s1 ++ s2) =
  list_ascii_of_string s1 ++ list_ascii_of_string s2.
Proof. induction s1 as [|c s1 IH]; simpl; [reflexivity|now rewrite IH]. Qed.

Lemma lower_app (s1 s2 : string) :
  Sk.lower (s1 ++ s2) = (Sk.lower s1 ++ Sk.lower s2)%string.
Proof. induction s1 as [|c s1 IH]; simpl; [reflexivity|now rewrite IH]. Qed.

(** A character that is not a word character ends the run being read. *)
Lemma word_runs_app_sep (cs1 cs2 cur : list ascii) (c : ascii) :
  Sk.is_word c = false ->
  Sk.word_runs (cs1 ++ c :: cs2) cur =
  Sk.word_runs cs1 cur ++ Sk.word_runs cs2 [].
Proof.
  intros Hc; revert cur; induction cs1 as [|x cs1 IH]; intros cur; simpl.
  - now rewrite Hc.
  - destruct (Sk.is_word x); [apply IH|]. now rewrite IH.
Qed.

Lemma tokenize_app_sep (s1 s2 : string) (c : ascii) :
  Sk.is_word c = false ->
  Sk.tokenize (s1 ++ String c s2) = Sk.tokenize s1 ++ Sk.tokenize s2.
Proof.
  intros Hc. unfold Sk.tokenize.
  rewrite list_ascii_of_string_app. simpl list_ascii_of_string.
  now rewrite word_runs_app_sep, filter_app, map_app.
Qed.

(** The tokens of two texts joined by a space are the tokens of the one
    followed by the tokens of the other. *)
Lemma analyze_join (s1 s2 : string) :
  Sk.analyze (s1 ++ String " " s2) = Sk.analyze s1 ++ Sk.analyze s2.
Proof.
  unfold Sk.analyze. rewrite lower_app. simpl Sk.lower.
  change (Sk.lower_char " ") with " "%char.
  now apply tokenize_app_sep.
Qed.

Lemma count_app (t : string) (l1 l2 : list string) :
  Sk.count t (l1 ++ l2) = Sk.count t l1 + Sk.count t l2.
Proof. unfold Sk.count. now rewrite filter_app, length_app. Qed.

End Tokenizer.

Section Scaling.
Local Open Scope R_scope.

Lemma dot_scale (c : R) (u w : list R) :
  Vec.dot (map (fun x => c * x) u) (map (fun x => c * x) w) =
  c * c * Vec.dot u w.
Proof.
  revert w; induction u as [|x u IH]; intros [|y w]; simpl; try ring.
  rewrite IH. ring.
Qed.

(** Normalising forgets a positive factor. *)
Lemma normalize_row_scale (c : R) (v : list R) :
  0 < c ->
  Sk.normalize_row (map (fun x => c * x) v) = Sk.normalize_row v.
Proof.
  intros Hc. unfold Sk.normalize_row. rewrite dot_scale.
  pose proof (dot_self_nonneg v) as Hpos.
  assert (Hcc : 0 < c * c) by now apply Rmult_lt_0_compat.
  destruct (Req_dec_T (Vec.dot v v) 0) as [E|Hne].
  - rewrite E, Rmult_0_r.
    destruct (Req_dec_T 0 0) as [_|F]; [|contradiction].
    pose proof (dot_self_zero v E) as Hz.
    rewrite <- (map_id v) at 2. apply map_ext_in. intros x Hx.
    unfold zero_vector in Hz. rewrite Forall_forall in Hz.
    rewrite (Hz x Hx). ring.
  - destruct (Req_dec_T (c * c * Vec.dot v v) 0) as [E|_].
    + apply Rmult_integral in E. destruct E; lra.
    + rewrite map_map. apply map_ext. intros x.
      rewrite sqrt_mult by lra. rewrite sqrt_square by lra.
      assert (Hs : 0 < sqrt (Vec.dot v v)) by (apply sqrt_lt_R0; lra).
      field. split; lra.
Qed.

Lemma scale_double (row : list nat) (idf : list R) :
  Sk.scale (map (fun c => (c + c)%nat) row) idf =
  map (fun x => 2 * x) (Sk.scale row idf).
Proof.
  revert idf; induction row as [|c row IH]; intros [|w idf]; simpl;
    try reflexivity.
  rewrite IH, plus_INR. f_equal. ring.
Qed.

End Scaling.

(** X12. Saying the query twice changes nothing: the cosine does not see
    the length of the query, only the proportions of its terms. *)
Theorem repeated_query_same_result
    (argsort : list R -> list nat) (query : string) (docs : list string)
    (v : Sk.TfidfVectorizer) (kb : Sk.matrix) (top_n : Z) :
  retrieve_documents argsort (query ++ String " " query) docs v kb top_n =
  retrieve_documents argsort query docs v kb top_n.
Proof.
  unfold retrieve_documents, Sk.transform, Sk.tfidf_transform. simpl map.
  assert (Hc : Sk.counts (Sk.vocabulary_ v) (query ++ String " " query) =
               map (fun c => c + c) (Sk.counts (Sk.vocabulary_ v) query)).
  { unfold Sk.counts. rewrite map_map. apply map_ext. intros t.
    now rewrite analyze_join, count_app. }
  rewrite Hc, scale_double, normalize_row_scale by lra.
  reflexivity.
Qed.

(** * Rankings without ties *)




(** * The analyzer and the vocabulary *)

Section Tokens.






End Tokens.



Section VocabularyOrder.

Lemma ascii_compare_lt_trans (a b c : ascii) :
  Ascii.compare a b = Lt -> Ascii.compare b c = Lt ->
  Ascii.compare a c = Lt.
Proof.
  unfold Ascii.compare. rewrite !N.compare_lt_iff. apply N.lt_trans.
Qed.

Lemma string_lt_trans (s1 s2 s3 : string) :
  string_lt s1 s2 -> string_lt s2 s3 -> string_lt s1 s3.
Proof.
  unfold string_lt. revert s2 s3.
  induction s1 as [|a s1 IH]; intros [|b s2] [|c s3]; simpl;
    try discriminate; auto.
  destruct (Ascii.compare a b) eqn:Eab; try discriminate;
    destruct (Ascii.compare b c) eqn:Ebc; try discriminate; intros H1 H2.
  - apply Ascii.compare_eq_iff in Eab, Ebc. subst b c.
    assert (E : Ascii.compare a a = Eq)
      by (unfold Ascii.compare; apply N.compare_refl).
    rewrite E. now apply (IH s2).
  - apply Ascii.compare_eq_iff in Eab. subst b. now rewrite Ebc.
  - apply Ascii.compare_eq_iff in Ebc. subst c. now rewrite Eab.
  - now rewrite (ascii_compare_lt_trans a b c Eab Ebc).
Qed.

Lemma string_compare_refl (s : string) : String.compare s s = Eq.
Proof.
  induction s as [|a s IH]; simpl; [reflexivity|].
  assert (Ea : Ascii.compare a a = Eq)
    by (unfold Ascii.compare; apply N.compare_refl).
  now rewrite Ea.
Qed.

Lemma string_lt_irrefl (s : string) : ~ string_lt s s.
Proof. unfold string_lt. rewrite string_compare_refl. discriminate. Qed.

Lemma string_lt_flip (s1 s2 : string) :
  String.compare s1 s2 = Gt -> string_lt s2 s1.
Proof.
  unfold string_lt. intros H.
  rewrite String.compare_antisym, H. reflexivity.
Qed.

Lemma vocab_insert_sorted (t : string) (l : list string) :
  StronglySorted string_lt l ->
  StronglySorted string_lt (Sk.vocab_insert t l).
Proof.
  induction 1 as [|u l Hs IH Hu]; simpl; [repeat constructor|].
  destruct (String.compare t u) eqn:E.
  - now constructor.
  - constructor; [now constructor|].
    constructor; [exact E|].
    eapply Forall_impl; [|exact Hu]. simpl. intros x Hx.
    now apply (string_lt_trans t u x).
  - constructor; [exact IH|].
    apply Forall_forall. intros x Hx. apply vocab_insert_In in Hx.
    destruct Hx as [->|Hx]; [now apply string_lt_flip|].
    rewrite Forall_forall in Hu. now apply Hu.
Qed.

Lemma sorted_terms_sorted (terms : list string) :
  StronglySorted string_lt (Sk.sorted_terms terms).
Proof.
  unfold Sk.sorted_terms.
  assert (H : forall acc, StronglySorted string_lt acc ->
            StronglySorted string_lt
              (fold_left (fun acc t => Sk.vocab_insert t acc) terms acc)).
  { induction terms as [|t terms IH]; intros acc Hacc; simpl;
      [exact Hacc|].
    apply IH. now apply vocab_insert_sorted. }
  apply H. constructor.
Qed.

Lemma sorted_NoDup (l : list string) :
  StronglySorted string_lt l -> NoDup l.
Proof.
  induction 1 as [|u l Hs IH Hu]; constructor; [|exact IH].
  intros Hin. rewrite Forall_forall in Hu.
  apply (string_lt_irrefl u). now apply Hu.
Qed.

End VocabularyOrder.

(** X14. The fitted vocabulary is the set of the tokens of the corpus, in
    strictly ascending order: a term is in it exactly when some document
    has it as a token, and no term is in it twice. *)
Theorem vocabulary_is_sorted_token_set
    (raw : list string) (v : Sk.TfidfVectorizer) (kb : Sk.matrix) :
  Sk.fit_transform raw = Ok (v, kb) ->
  StronglySorted string_lt (Sk.vocabulary_ v) /\
  NoDup (Sk.vocabulary_ v) /\
  (forall t, In t (Sk.vocabulary_ v) <->
             exists doc, In doc raw /\ In t (Sk.analyze doc)) /\
  length (Sk.idf_ v) = length (Sk.vocabulary_ v) /\
  Forall (fun row => length row = length (Sk.vocabulary_ v)) kb.
Proof.
  intros Hfit. pose proof (has_width_kb raw v kb Hfit) as Hw.
  destruct (fit_transform_inv Hfit) as (_ & Hv & _).
  assert (Hs : StronglySorted string_lt (Sk.vocabulary_ v))
    by (rewrite Hv; simpl; apply sorted_terms_sorted).
  split; [exact Hs|]. split; [now apply sorted_NoDup|]. split.
  - intros t. rewrite Hv. simpl. apply learned_vocabulary_In.
  - split; [rewrite Hv; apply fitted_width|].
    unfold Sk.has_width in Hw. rewrite forallb_forall in Hw.
    apply Forall_forall. intros row Hrow. apply Nat.eqb_eq. now apply Hw.
Qed.

Lemma vocabulary_is_sorted_token_set_witness :
  StronglySorted string_lt (Sk.vocabulary_ vectorizer) /\
  NoDup (Sk.vocabulary_ vectorizer) /\
  (forall t, In t (Sk.vocabulary_ vectorizer) <->
             exists doc, In doc corpus /\ In t (Sk.analyze doc)) /\
  length (Sk.idf_ vectorizer) = length (Sk.vocabulary_ vectorizer) /\
  Forall (fun row => length row = length (Sk.vocabulary_ vectorizer))
    vector_kb.
Proof.
  apply (vocabulary_is_sorted_token_set corpus vectorizer vector_kb).
  exact cell3_fitted.
Defined.

(** * When fitting succeeds, and the norm of the rows *)

Lemma learned_vocabulary_nil (raw : list string) :
  learned_vocabulary raw = [] <->
  forall doc, In doc raw -> Sk.analyze doc = [].
Proof.
  split.
  - intros E doc Hdoc. destruct (Sk.analyze doc) as [|t toks] eqn:Et;
      [reflexivity|].
    assert (Hin : In t (learned_vocabulary raw)).
    { apply learned_vocabulary_In. exists doc. rewrite Et. simpl. auto. }
    rewrite E in Hin. contradiction.
  - intros H. destruct (learned_vocabulary raw) as [|t l] eqn:E;
      [reflexivity|].
    assert (Hin : In t (learned_vocabulary raw)) by (rewrite E; simpl; auto).
    apply learned_vocabulary_In in Hin. destruct Hin as [doc [Hdoc Ht]].
    rewrite (H doc Hdoc) in Ht. contradiction.
Qed.

(** X15. [fit_transform] raises the empty-vocabulary error exactly when
    no document of the corpus has a token (the corpus is empty, or its
    documents hold only punctuation and one-letter words); it succeeds
    exactly when some document has one. *)
Theorem fit_raises_iff_no_document_has_a_token (raw : list string) :
  (Sk.fit_transform raw = Raise ValueError_empty_vocabulary <->
   forall doc, In doc raw -> Sk.analyze doc = []) /\
  ((exists v kb, Sk.fit_transform raw = Ok (v, kb)) <->
   exists doc, In doc raw /\ Sk.analyze doc <> []).
Proof.
  split.
  - rewrite <- learned_vocabulary_nil. split.
    + intros H. destruct (learned_vocabulary raw) eqn:E; [reflexivity|].
      rewrite fit_transform_ok in H by (rewrite E; discriminate).
      discriminate.
    + intros E. unfold Sk.fit_transform. fold (learned_vocabulary raw).
      now rewrite E.
  - split.
    + intros (v & kb & H). destruct (fit_transform_inv H) as (Hne & _).
      destruct (learned_vocabulary raw) as [|t l] eqn:E; [contradiction|].
      assert (Hin : In t (learned_vocabulary raw))
        by (rewrite E; simpl; auto).
      apply learned_vocabulary_In in Hin. destruct Hin as [doc [Hdoc Ht]].
      exists doc. split; [exact Hdoc|]. intros E0. rewrite E0 in Ht.
      contradiction.
    + intros (doc & Hdoc & Hne).
      exists (fitted raw), (Sk.transform (fitted raw) raw).
      apply fit_transform_ok. intros E.
      apply Hne. now apply (proj1 (learned_vocabulary_nil raw) E).
Qed.



(** * The loop of [DetailJob.forward] *)

Section DetailJobFacts.
Context {LM : Type}.
Variable skill_identifier :
  string -> LM -> option Dspy.SkillIdentifier.Prediction * LM.
Variable skill_summary :
  string -> LM -> option Dspy.SkillSummary.Prediction * LM.
Variable format_list : list string -> string.

Local Abbreviation for_items := (Dspy.for_items skill_summary format_list).
Local Abbreviation forward :=
  (Dspy.forward skill_identifier skill_summary format_list).


Lemma reached_cons (top_k i : Z) (item : string) (rest : list string) :
  Dspy.reached top_k i (item :: rest) =
  item :: (if (i =? top_k - 1)%Z then []
           else Dspy.reached top_k (i + 1) rest).
Proof.
  unfold Dspy.reached.
  destruct (Z.eqb_spec i (top_k - 1)) as [E|Hne].
  - subst i. rewrite Z.leb_refl.
    replace (top_k - (top_k - 1))%Z with 1%Z by lia. reflexivity.
  - destruct (Z.leb_spec i (top_k - 1)) as [Hle|Hgt].
    + destruct (Z.leb_spec (i + 1) (top_k - 1)) as [_|Hgt]; [|lia].
      replace (Z.to_nat (top_k - i)) with (S (Z.to_nat (top_k - (i + 1))))
        by lia.
      reflexivity.
    + destruct (Z.leb_spec (i + 1) (top_k - 1)) as [Hle|_]; [lia|].
      reflexivity.
Qed.

Lemma reached_positive (top_k : Z) (items : list string) :
  (1 <= top_k)%Z ->
  Dspy.reached top_k 0 items = firstn (Z.to_nat top_k) items.
Proof.
  intros H. unfold Dspy.reached.
  destruct (Z.leb_spec 0 (top_k - 1)) as [_|Hgt]; [|lia].
  now rewrite Z.sub_0_r.
Qed.


(** One pass through the body of the loop when the summary call
    returns. *)
Lemma for_items_cons_some (top_k i : Z) (item : string)
    (rest : list string) (w : Dspy.world LM)
    (d : Dspy.SkillSummary.Prediction) (st : LM) :
  skill_summary item (Dspy.lm w) = (Some d, st) ->
  exists w1,
    for_items top_k i (item :: rest) w =
      (if (i =? top_k - 1)%Z then (Some tt, w1)
       else for_items top_k (i + 1) rest w1) /\
    Dspy.lm w1 = st /\
    Dspy.summary_calls (Dspy.trace w1) =
      Dspy.summary_calls (Dspy.trace w) ++ [item] /\
    Dspy.identifier_calls (Dspy.trace w1) =
      Dspy.identifier_calls (Dspy.trace w) /\
    length (Dspy.printed (Dspy.trace w1)) =
      5 + length (Dspy.printed (Dspy.trace w)).
Proof.
  intros H. eexists. split.
  - cbn [Dspy.for_items]. unfold Dspy.bindM at 1.
    unfold Dspy.call_skill_summary at 1. rewrite H.
    unfold Dspy.bindM, Dspy.print, Dspy.ret.
    destruct (i =? top_k - 1)%Z; reflexivity.
  - unfold Dspy.emit, Dspy.summary_calls, Dspy.identifier_calls,
      Dspy.printed. cbn [Dspy.lm Dspy.trace].
    rewrite !flat_map_app. cbn [flat_map app]. rewrite !app_nil_r.
    rewrite !length_app. cbn [length]. repeat split; lia.
Qed.

(** One pass when the summary call raises: the run ends there. *)
Lemma for_items_cons_none (top_k i : Z) (item : string)
    (rest : list string) (w : Dspy.world LM) (st : LM) :
  skill_summary item (Dspy.lm w) = (None, st) ->
  for_items top_k i (item :: rest) w =
    (None, {| Dspy.lm := st;
              Dspy.trace := Dspy.trace w ++ [Dspy.Call_skill_summary item] |}).
Proof.
  intros H. cbn [Dspy.for_items]. unfold Dspy.bindM at 1.
  unfold Dspy.call_skill_summary at 1. now rewrite H.
Qed.


(** Whatever the predictor does, the summary calls are a prefix of the
    items the loop can reach, and a run that raises ends with the call
    that raised. *)
Lemma for_items_prefix (top_k : Z) :
  forall (items : list string) (i : Z) (w : Dspy.world LM),
  exists n,
    Dspy.summary_calls (Dspy.trace (snd (for_items top_k i items w))) =
      Dspy.summary_calls (Dspy.trace w) ++
      firstn n (Dspy.reached top_k i items) /\
    (fst (for_items top_k i items w) = None ->
     exists tr s,
       Dspy.trace (snd (for_items top_k i items w)) =
       tr ++ [Dspy.Call_skill_summary s]).
Proof.
  induction items as [|item rest IH]; intros i w.
  - exists 0. cbn. rewrite app_nil_r. split; [reflexivity|discriminate].
  - destruct (skill_summary item (Dspy.lm w)) as [[d|] st] eqn:E.
    + destruct (for_items_cons_some top_k i item rest w d st E)
        as (w1 & Hrun & _ & Hs & _ & _).
      rewrite Hrun, reached_cons.
      destruct (i =? top_k - 1)%Z.
      * exists 1. cbn [fst snd firstn]. rewrite Hs.
        split; [reflexivity|discriminate].
      * destruct (IH (i + 1)%Z w1) as (n & Hn & Hraise).
        exists (S n). rewrite Hn, Hs, <- app_assoc. cbn [firstn app].
        split; [reflexivity|exact Hraise].
    + rewrite (for_items_cons_none top_k i item rest w st E).
      exists 1. cbn [fst snd Dspy.trace]. rewrite reached_cons.
      unfold Dspy.summary_calls. rewrite flat_map_app. cbn.
      split; [reflexivity|]. intros _. eauto.
Qed.

(** [forward] up to the loop, when the identifier call returns. *)
Lemma forward_some (job_description : string) (top_k : Z) (st st1 : LM)
    (p : Dspy.SkillIdentifier.Prediction) :
  skill_identifier job_description st = (Some p, st1) ->
  exists w1,
    forward job_description top_k (Dspy.start st) =
      for_items top_k 0 (Dspy.SkillIdentifier.tech_skills p) w1 /\
    Dspy.summary_calls (Dspy.trace w1) = [] /\
    Dspy.identifier_calls (Dspy.trace w1) = [job_description] /\
    length (Dspy.printed (Dspy.trace w1)) = 1.
Proof.
  intros H. eexists. split.
  - unfold Dspy.forward. unfold Dspy.bindM at 1.
    unfold Dspy.call_skill_identifier at 1.
    cbn [Dspy.start Dspy.lm Dspy.trace]. rewrite H.
    unfold Dspy.bindM at 1. unfold Dspy.print at 1. reflexivity.
  - cbn. auto.
Qed.

Lemma forward_none (job_description : string) (top_k : Z) (st st1 : LM) :
  skill_identifier job_description st = (None, st1) ->
  forward job_description top_k (Dspy.start st) =
    (None, {| Dspy.lm := st1;
              Dspy.trace := [Dspy.Call_skill_identifier job_description] |}).
Proof.
  intros H. unfold Dspy.forward. unfold Dspy.bindM at 1.
  unfold Dspy.call_skill_identifier at 1.
  cbn [Dspy.start Dspy.lm Dspy.trace]. now rewrite H.
Qed.

End DetailJobFacts.





(** X19. Whatever the predictors do, a run with [top_k >= 1] makes at
    most [top_k] summary calls, for a prefix of the identified skills;
    when a predictor raises, [forward] raises and the failed call is the
    last thing it did. *)
Theorem forward_makes_at_most_top_k_summary_calls
    (LM : Type)
    (skill_identifier :
       string -> LM -> option Dspy.SkillIdentifier.Prediction * LM)
    (skill_summary :
       string -> LM -> option Dspy.SkillSummary.Prediction * LM)
    (format_list : list string -> string)
    (job_description : string) (top_k : Z) (st : LM) :
  (1 <= top_k)%Z ->
  let run :=
    Dspy.forward skill_identifier skill_summary format_list
      job_description top_k (Dspy.start st) in
  length (Dspy.summary_calls (Dspy.trace (snd run))) <= Z.to_nat top_k /\
  (forall p, fst (skill_identifier job_description st) = Some p ->
     exists n,
       Dspy.summary_calls (Dspy.trace (snd run)) =
       firstn n (Dspy.SkillIdentifier.tech_skills p)) /\
  (fst run = None ->
   exists tr,
     (Dspy.trace (snd run) =
        tr ++ [Dspy.Call_skill_identifier job_description] \/
      exists s, Dspy.trace (snd run) = tr ++ [Dspy.Call_skill_summary s])).
Proof.
  intros Hk run. subst run.
  destruct (skill_identifier job_description st) as [[p|] st1] eqn:Hid.
  - destruct (forward_some skill_identifier skill_summary format_list
                job_description top_k st st1 p Hid)
      as (w1 & Hrun & Hs & _ & _).
    destruct (for_items_prefix skill_summary format_list top_k
                (Dspy.SkillIdentifier.tech_skills p) 0%Z w1)
      as (n & Hn & Hraise).
    rewrite Hrun, Hn, Hs, reached_positive by exact Hk. cbn [app].
    split; [|split].
    + rewrite firstn_firstn, length_firstn. lia.
    + intros p' Hp'. cbn [fst] in Hp'. injection Hp' as <-.
      exists (Nat.min n (Z.to_nat top_k)). apply firstn_firstn.
    + intros Hnone. destruct (Hraise Hnone) as (tr & s & Htr).
      exists tr. right. exists s. exact Htr.
  - rewrite (forward_none skill_identifier skill_summary format_list
               job_description top_k st st1 Hid).
    cbn [fst snd Dspy.trace]. split; [|split].
    + cbn. lia.
    + intros p Hp. discriminate.
    + intros _. exists []. left. reflexivity.
Qed.

Lemma forward_makes_at_most_top_k_summary_calls_witness :
  let run :=
    Dspy.forward Dspy.canned_skill_identifier Dspy.failing_skill_summary
      Dspy.canned_format_list "data engineer" 4 (Dspy.start 0) in
  length (Dspy.summary_calls (Dspy.trace (snd run))) <= Z.to_nat 4 /\
  (forall p,
     fst (Dspy.canned_skill_identifier "data engineer" 0) = Some p ->
     exists n,
       Dspy.summary_calls (Dspy.trace (snd run)) =
       firstn n (Dspy.SkillIdentifier.tech_skills p)) /\
  (fst run = None ->
   exists tr,
     (Dspy.trace (snd run) =
        tr ++ [Dspy.Call_skill_identifier "data engineer"] \/
      exists s, Dspy.trace (snd run) = tr ++ [Dspy.Call_skill_summary s])).
Proof.
  apply (forward_makes_at_most_top_k_summary_calls nat
           Dspy.canned_skill_identifier Dspy.failing_skill_summary
           Dspy.canned_format_list "data engineer" 4 0).
  lia.
Defined.

(** * The fields of [UserProfile] *)

Section UserProfileFacts.

Lemma upper_char_idem (c : ascii) :
  Pydantic.upper_char (Pydantic.upper_char c) = Pydantic.upper_char c.
Proof.
  destruct ((97 <=? nat_of_ascii c) && (nat_of_ascii c <=? 122))%bool
    eqn:E.
  - assert (Hc : Pydantic.upper_char c = ascii_of_nat (nat_of_ascii c - 32))
      by (unfold Pydantic.upper_char; now rewrite E).
    apply andb_true_iff in E. destruct E as [H1 H2].
    apply Nat.leb_le in H1, H2.
    rewrite Hc. unfold Pydantic.upper_char.
    rewrite nat_ascii_embedding by lia.
    destruct (Nat.leb_spec 97 (nat_of_ascii c - 32)) as [H|_]; [lia|].
    reflexivity.
  - assert (Hc : Pydantic.upper_char c = c)
      by (unfold Pydantic.upper_char; now rewrite E).
    now rewrite !Hc.
Qed.

Lemma upper_idem (s : string) :
  Pydantic.upper (Pydantic.upper s) = Pydantic.upper s.
Proof.
  induction s as [|c s IH]; simpl; [reflexivity|].
  now rewrite upper_char_idem, IH.
Qed.

Lemma length_upper (s : string) :
  String.length (Pydantic.upper s) = String.length s.
Proof. induction s as [|c s IH]; simpl; congruence. Qed.

End UserProfileFacts.

(** X20. An [id] is accepted exactly when it lies between 1 and 999, and
    is then kept as it is; an [id] of 1000 or more is refused by the
    constraint of the field, before [validate_id] sees it, and an [id] of
    0 or less is refused by [validate_id], with the value in the
    message. *)
Theorem id_is_accepted_between_1_and_999 (value : Z) :
  ((1 <= value <= 999)%Z <->
   Pydantic.UserProfile.id_field value = Pydantic.Valid value) /\
  ((1000 <= value)%Z ->
   Pydantic.UserProfile.id_field value =
   Pydantic.Invalid (Pydantic.less_than 1000)) /\
  ((value <= 0)%Z ->
   Pydantic.UserProfile.id_field value =
   Pydantic.Invalid
     (Pydantic.value_error
        ("User ID must be > 0 ! Actual value: " ++
         Pydantic.str_int value)%string)).
Proof.
  unfold Pydantic.UserProfile.id_field, Pydantic.UserProfile.validate_id.
  destruct (Z.ltb_spec value 1000) as [Hlt|Hge];
    [destruct (Z.leb_spec value 0) as [Hle|Hgt]|].
  - split; [|split]; [split; [lia|discriminate] | lia | reflexivity].
  - split; [|split]; [split; [reflexivity|lia] | lia | lia].
  - split; [|split]; [split; [lia|discriminate] | reflexivity | lia].
Qed.

(** X21. The JSON form of a valid username is a valid username again,
    of the same length, and serialising it once more changes nothing:
    the profile read back from its own JSON has the upper-case name. *)
Theorem serialized_username_stays_valid (username : string) :
  Pydantic.UserProfile.username_field username = Pydantic.Valid username ->
  Pydantic.UserProfile.username_field
    (Pydantic.UserProfile.serialize_username username) =
    Pydantic.Valid (Pydantic.UserProfile.serialize_username username) /\
  String.length (Pydantic.UserProfile.serialize_username username) =
    String.length username /\
  Pydantic.UserProfile.serialize_username
    (Pydantic.UserProfile.serialize_username username) =
    Pydantic.UserProfile.serialize_username username.
Proof.
  unfold Pydantic.UserProfile.username_field,
    Pydantic.UserProfile.serialize_username.
  rewrite length_upper, upper_idem. intros H.
  destruct (String.length username <? 5)%nat; [discriminate|].
  destruct (20 <? String.length username)%nat; [discriminate|].
  auto.
Qed.

Lemma serialized_username_stays_valid_witness :
  Pydantic.UserProfile.username_field
    (Pydantic.UserProfile.serialize_username "johnsmith") =
    Pydantic.Valid (Pydantic.UserProfile.serialize_username "johnsmith") /\
  String.length (Pydantic.UserProfile.serialize_username "johnsmith") =
    String.length "johnsmith" /\
  Pydantic.UserProfile.serialize_username
    (Pydantic.UserProfile.serialize_username "johnsmith") =
    Pydantic.UserProfile.serialize_username "johnsmith".
Proof.
  apply (serialized_username_stays_valid "johnsmith"). reflexivity.
Defined.
